(** * Link rewriting for translated documentation trees, and the colour palette

    A shallow embedding of [docs/update_translations.py]
    (class [MarkdownLinkFixer]) and of the [Colors] class of
    [ultralytics/test/data/dataset/yolodetection.py].

    Python values are modelled as follows.
    - A [str] is a list of Unicode code points ([text]); a code point is a
      number of type [N].
    - A [pathlib.Path] on a POSIX system is a root flag and a list of
      component names ([Path.path]).
    - The file system is an oracle ([FS.t]): the working directory, the
      existence test, the directory test and the directory listing.  It has
      no symbolic links, so [Path.resolve] is the lexical normalisation that
      [os.path.realpath] performs in that case.  The existence test
      answers [True] or [False] or fails with [OSError], as the system
      call behind it does.
    - [print] appends a line to a log (standard output takes every
      character), and an exception ends the computation: the monad [M]
      carries both.
    - A compiled regular expression is a list of pattern items run by a
      backtracking matcher with greedy repetition ([Re]). *)

From Stdlib Require Import List Ascii NArith ZArith Lia Bool Arith.
From Stdlib Require String.
Import ListNotations String.StringSyntax Ascii.AsciiSyntax.
Local Open Scope string_scope.
Local Open Scope list_scope.

(* ================================================================== *)
(** ** Python strings *)

Module Text.

Definition char := N.
Definition text := list char.

Definition chr (a : ascii) : char := N_of_ascii a.

(** A string literal of the source, as a [text]. *)
Definition lit (s : String.string) : text :=
  map chr (String.list_ascii_of_string s).

(** The line feed character. *)
Definition newline : char := 10%N.

Definition char_eqb (a b : char) : bool := N.eqb a b.

Fixpoint text_eqb (a b : text) : bool :=
  match a, b with
  | [], [] => true
  | x :: a', y :: b' => char_eqb x y && text_eqb a' b'
  | _, _ => false
  end.

(** [s.startswith(p)] *)
Fixpoint startswith (s p : text) {struct p} : bool :=
  match p with
  | [] => true
  | y :: p' =>
      match s with
      | [] => false
      | x :: s' => char_eqb x y && startswith s' p'
      end
  end.

(** The scan of [str.replace] for a non-empty [old]: left to right, every
    occurrence that does not overlap an earlier one is replaced.  [skip]
    counts the characters of the current occurrence still to be passed. *)
Fixpoint replace_from (old new : text) (skip : nat) (s : text) : text :=
  match s with
  | [] => []
  | c :: s' =>
      match skip with
      | S k => replace_from old new k s'
      | O =>
          if startswith (c :: s') old
          then new ++ replace_from old new (length old - 1) s'
          else c :: replace_from old new 0 s'
      end
  end.

(** [s.replace(old, new)]; with an empty [old] Python puts [new] before
    every character and at the end. *)
Definition replace (s old new : text) : text :=
  match old with
  | [] => new ++ flat_map (fun c => c :: new) s
  | _ :: _ => replace_from old new 0 s
  end.

(** [s.split(sep)] for a one-character separator. *)
Fixpoint split (sep : char) (s : text) : list text :=
  match s with
  | [] => [[]]
  | c :: s' =>
      if char_eqb c sep then [] :: split sep s'
      else match split sep s' with
           | h :: t => (c :: h) :: t
           | [] => [[c]]
           end
  end.

(** [sep.join(l)] *)
Fixpoint join (sep : text) (l : list text) : text :=
  match l with
  | [] => []
  | x :: rest =>
      match rest with
      | [] => x
      | _ :: _ => x ++ sep ++ join sep rest
      end
  end.

(** [old in s] *)
Fixpoint occurs_in (old s : text) : bool :=
  match s with
  | [] => startswith [] old
  | c :: s' => startswith (c :: s') old || occurs_in old s'
  end.

(** [s * n] *)
Definition times (s : text) (n : nat) : text := concat (repeat s n).

(** [name.rpartition('.')] when the name has a dot: the text before the
    last dot and the text after it. *)
Fixpoint rpartition_dot (s : text) : option (text * text) :=
  match s with
  | [] => None
  | c :: s' =>
      match rpartition_dot s' with
      | Some (b, a) => Some (c :: b, a)
      | None => if char_eqb c (chr ".") then Some ([], s') else None
      end
  end.

End Text.
Import Text.

(* ================================================================== *)
(** ** Output and exceptions *)

Inductive exn := ValueError | IndexError | ZeroDivisionError | OSError.

Inductive result (A : Type) :=
| Ok (a : A)
| Raise (e : exn).
Arguments Ok {A} a.
Arguments Raise {A} e.

(** A computation that prints lines and then returns or raises. *)
Definition M (A : Type) : Type := (list text * result A)%type.

Definition ret {A} (a : A) : M A := ([], Ok a).
Definition raise {A} (e : exn) : M A := ([], Raise e).
Definition print (line : text) : M unit := ([line], Ok tt).
Definition lift {A} (r : result A) : M A := ([], r).

Definition bind {A B} (m : M A) (f : A -> M B) : M B :=
  match m with
  | (out, Ok a) => let (out', r) := f a in (out ++ out', r)
  | (out, Raise e) => (out, Raise e)
  end.

Notation "x <- m ;; k" := (bind m (fun x => k))
  (at level 61, m at next level, right associativity).
Notation "m ;;; k" := (bind m (fun _ => k))
  (at level 61, right associativity).

Definition output {A} (m : M A) : list text := fst m.
Definition outcome {A} (m : M A) : result A := snd m.

(* ================================================================== *)
(** ** pathlib on POSIX *)

Module Path.

(** A path: whether it starts at the root, and its component names.  A
    name is never empty, never ["."] and holds no separator; [".."] stays
    a name until the path is resolved.  (A root of exactly two slashes,
    which pathlib keeps apart, is read as the ordinary root: [resolve]
    maps the two to the same path.) *)
Record path := mk { root : bool; names : list text }.

Definition sep : char := chr "/".
Definition dot : text := lit ".".
Definition dotdot : text := lit "..".

(** [Path(s)] *)
Definition parse (s : text) : path :=
  {| root := startswith s [sep];
     names := filter (fun n => negb (text_eqb n []) && negb (text_eqb n dot))
                     (split sep s) |}.

(** [str(p)] *)
Definition str (p : path) : text :=
  if root p then sep :: join [sep] (names p)
  else match names p with
       | [] => dot
       | _ :: _ => join [sep] (names p)
       end.

(** [p / q] for two paths. *)
Definition join_path (p q : path) : path :=
  if root q then q else {| root := root p; names := names p ++ names q |}.

(** [p / s] for a path and a string. *)
Definition div (p : path) (s : text) : path := join_path p (parse s).

(** [p.name] *)
Definition name (p : path) : text := last (names p) [].

(** [p.parent] *)
Definition parent (p : path) : path :=
  {| root := root p; names := removelast (names p) |}.

(** [p.parts] *)
Definition parts (p : path) : list text :=
  if root p then [sep] :: names p else names p.

(** [p.suffix]: from the last dot of the name, unless that dot is the
    first or the last character. *)
Definition suffix (p : path) : text :=
  match rpartition_dot (name p) with
  | Some (_ :: _, (_ :: _) as a) => chr "." :: a
  | _ => []
  end.

(** [p.with_suffix(sfx)], for a suffix that is valid ([".md"] is). *)
Definition with_suffix (p : path) (sfx : text) : result path :=
  match name p with
  | [] => Raise ValueError
  | nm =>
      let old_suffix := suffix p in
      let nm' :=
        match old_suffix with
        | [] => nm ++ sfx
        | _ :: _ => firstn (length nm - length old_suffix) nm ++ sfx
        end in
      Ok {| root := root p; names := removelast (names p) ++ [nm'] |}
  end.

Fixpoint is_prefix (p l : list text) {struct p} : bool :=
  match p with
  | [] => true
  | x :: p' =>
      match l with
      | [] => false
      | y :: l' => text_eqb x y && is_prefix p' l'
      end
  end.

(** [p.relative_to(q)] *)
Definition relative_to (p q : path) : result path :=
  if Bool.eqb (root p) (root q) && is_prefix (names q) (names p)
  then Ok {| root := false; names := skipn (length (names q)) (names p) |}
  else Raise ValueError.

(** The names left when every [".."] has removed the name before it; at
    the root [".."] stays at the root.  [stack] is the path so far,
    innermost name first. *)
Fixpoint collapse (stack : list text) (ns : list text) : list text :=
  match ns with
  | [] => rev stack
  | n :: ns' =>
      if text_eqb n dotdot then collapse (tl stack) ns'
      else collapse (n :: stack) ns'
  end.

(** The names of a path, each after a separator: the string of an
    absolute path that is not the root. *)
Definition slashed (l : list text) : text := flat_map (fun n => sep :: n) l.

(** What a name of a parsed path is: not empty, without separator, not
    ["."]. *)
Definition name_ok (n : text) : bool :=
  negb (text_eqb n []) && negb (existsb (char_eqb sep) n) && negb (text_eqb n dot).

(** A name of a resolved path: moreover not [".."]. *)
Definition plain (n : text) : bool := name_ok n && negb (text_eqb n dotdot).

Definition path_eqb (p q : path) : bool :=
  Bool.eqb (root p) (root q) &&
  ((length (names p) =? length (names q)) && is_prefix (names p) (names q)).

End Path.

(* ================================================================== *)
(** ** The file system *)

Module FS.

(** [exists_]: [Path.exists] calls [stat]; it answers [False] when the
    system call fails because the file or a directory on the way is not
    there, and lets every other failure of the call through as [OSError]
    (a name longer than the file system takes, a directory that may not be
    searched). *)
Record t := mk {
  cwd : list text;                      (* names of the working directory *)
  exists_ : Path.path -> result bool;   (* Path.exists *)
  is_dir : Path.path -> bool;           (* Path.is_dir *)
  iterdir : Path.path -> list Path.path (* Path.iterdir, in the order given *)
}.

(** The path [p.resolve()] returns, without symbolic links. *)
Definition resolve (fs : t) (p : Path.path) : Path.path :=
  {| Path.root := true;
     Path.names :=
       Path.collapse [] ((if Path.root p then [] else cwd fs) ++ Path.names p) |}.

(** Whether a name of the path holds the character NUL. *)
Definition has_nul (p : Path.path) : bool :=
  existsb (existsb (char_eqb 0%N)) (Path.names p).

(** The call [p.resolve()]: [os.path.realpath] asks [os.lstat] about
    every name of the path in turn, and [os.lstat] refuses a path that
    holds the character NUL with [ValueError]; the other failures of
    [os.lstat] are passed over. *)
Definition resolve_call (fs : t) (p : Path.path) : result Path.path :=
  if has_nul p then Raise ValueError else Ok (resolve fs p).

(** The number of bytes of a text in UTF-8, the encoding of file names. *)
Definition utf8_length (s : text) : nat :=
  list_sum (map (fun c => if (c <? 128)%N then 1
                          else if (c <? 2048)%N then 2
                          else if (c <? 65536)%N then 3 else 4) s).

(** The limits of Linux: 255 bytes for a name, 4095 for a path. *)
Definition name_max : nat := 255.
Definition path_max : nat := 4095.

(** Whether [stat] meets a name that is too long: the names are looked up
    from the root on, as long as what stands before them is a directory
    ([walked] is the names passed, [todo] those to come). *)
Fixpoint too_long (dirs : list Path.path) (r : bool) (walked todo : list text)
    : bool :=
  match todo with
  | [] => false
  | n :: todo' =>
      (match walked with [] => true | _ :: _ => false end
       || existsb (Path.path_eqb (Path.mk r walked)) dirs)
      && ((name_max <? utf8_length n)
          || too_long dirs r (walked ++ [n]) todo')
  end.

(** A file system given by the list of the absolute paths that exist
    and, for listings, the directories among them. *)
Definition of_lists (files dirs : list Path.path) : t :=
  {| cwd := [];
     exists_ := fun p =>
       if (path_max <? utf8_length (Path.str p))
          || too_long dirs (Path.root p) [] (Path.names p)
       then Raise OSError
       else Ok (existsb (Path.path_eqb p) (files ++ dirs));
     is_dir := fun p => existsb (Path.path_eqb p) dirs;
     iterdir := fun p =>
       filter (fun q => Path.path_eqb (Path.parent q) p
                        && negb (Nat.eqb (length (Path.names q)) 0))
              (files ++ dirs) |}.

End FS.

(* ================================================================== *)
(** ** Regular expressions of the [re] module *)

Module Re.

(** The pattern items the two expressions of the source are made of. *)
Inductive item :=
| Lit (c : char)            (* a literal character *)
| Cls (p : char -> bool)    (* one character of a class *)
| Plus (p : char -> bool)   (* class+, greedy *)
| Mark                      (* a parenthesis of a capturing group *)
| Bol                       (* ^ *)
| Eol.                      (* $ *)

Definition pattern := list item.

(** Length of the longest prefix of [s] made of characters in [p]. *)
Fixpoint run (p : char -> bool) (s : text) : nat :=
  match s with
  | [] => 0
  | c :: s' => if p c then S (run p s') else 0
  end.

(** Backtracking of a greedy repetition: the longest length first, down
    to one. *)
Fixpoint try_down {A} (f : nat -> option A) (n : nat) : option A :=
  match n with
  | O => None
  | S k =>
      match f (S k) with
      | Some r => Some r
      | None => try_down f k
      end
  end.

(** The matcher.  [bos]: the attempt starts at the beginning of the
    subject; [pos]: characters consumed since the start of the attempt;
    [s]: what is left of the subject; [marks]: positions of the group
    parentheses passed, latest first.  The result is the end position and
    the marks. *)
Fixpoint exec (its : pattern) (bos : bool) (pos : nat) (s : text)
    (marks : list nat) : option (nat * list nat) :=
  match its with
  | [] => Some (pos, marks)
  | Lit c :: its' =>
      match s with
      | x :: s' => if char_eqb x c then exec its' bos (S pos) s' marks else None
      | [] => None
      end
  | Cls p :: its' =>
      match s with
      | x :: s' => if p x then exec its' bos (S pos) s' marks else None
      | [] => None
      end
  | Plus p :: its' =>
      try_down (fun k => exec its' bos (pos + k) (skipn k s) marks) (run p s)
  | Mark :: its' => exec its' bos pos s (pos :: marks)
  | Bol :: its' =>
      if bos && (pos =? 0) then exec its' bos pos s marks else None
  | Eol :: its' =>
      match s with
      | [] => exec its' bos pos s marks
      | [c] => if char_eqb c newline then exec its' bos pos s marks else None
      | _ :: _ :: _ => None
      end
  end.

(** A match object: [group(0)] and [groups()]. *)
Record Match := mkMatch { group0 : text; groups : list text }.

(** The groups cut out of the subject, from the marks in pattern order. *)
Fixpoint captures (s : text) (marks : list nat) : list text :=
  match marks with
  | a :: b :: rest => firstn (b - a) (skipn a s) :: captures s rest
  | _ => []
  end.

(** An attempt at the head of [s]. *)
Definition match_at (re : pattern) (bos : bool) (s : text) : option Match :=
  match exec re bos 0 s [] with
  | Some (e, marks) =>
      Some {| group0 := firstn e s; groups := captures s (rev marks) |}
  | None => None
  end.

(** [re.match(pattern, s)] *)
Definition match_ (re : pattern) (s : text) : option Match := match_at re true s.

(** The scan of [pattern.sub(repl, s)] with a function [repl]: matches
    are looked for from left to right in the subject, each after the end
    of the one before; [repl] is called on each and its result put in
    place of the match.  An empty match is followed by the next character
    of the subject.  [skip] counts the characters of the current match
    still to be passed. *)
Fixpoint sub_from (re : pattern) (repl : Match -> M text) (bos : bool)
    (skip : nat) (s : text) : M text :=
  match s with
  | [] =>
      match skip with
      | O => match match_at re bos [] with
             | Some m => repl m
             | None => ret []
             end
      | S _ => ret []
      end
  | c :: s' =>
      match skip with
      | S k => sub_from re repl false k s'
      | O =>
          match match_at re bos (c :: s') with
          | Some m =>
              r <- repl m ;;
              match length (group0 m) with
              | O => rest <- sub_from re repl false 0 s' ;; ret (r ++ c :: rest)
              | S k => rest <- sub_from re repl false k s' ;; ret (r ++ rest)
              end
          | None => rest <- sub_from re repl false 0 s' ;; ret (c :: rest)
          end
      end
  end.

Definition sub (re : pattern) (repl : Match -> M text) (s : text) : M text :=
  sub_from re repl true 0 s.

(** The same scan without the replacement: the subject cut into the
    matches ([pattern.finditer]) and the characters between them. *)
Inductive chunk :=
| Plain (c : char)
| Matched (m : Match).

Fixpoint scan_from (re : pattern) (bos : bool) (skip : nat) (s : text)
    : list chunk :=
  match s with
  | [] =>
      match skip with
      | O => match match_at re bos [] with
             | Some m => [Matched m]
             | None => []
             end
      | S _ => []
      end
  | c :: s' =>
      match skip with
      | S k => scan_from re false k s'
      | O =>
          match match_at re bos (c :: s') with
          | Some m =>
              match length (group0 m) with
              | O => Matched m :: Plain c :: scan_from re false 0 s'
              | S k => Matched m :: scan_from re false k s'
              end
          | None => Plain c :: scan_from re false 0 s'
          end
      end
  end.

Definition scan (re : pattern) (s : text) : list chunk := scan_from re true 0 s.

Definition finditer (re : pattern) (s : text) : list Match :=
  flat_map (fun ch => match ch with Matched m => [m] | Plain _ => [] end)
           (scan re s).

(** The text a chunk stands for in the subject. *)
Definition chunk_text (ch : chunk) : text :=
  match ch with
  | Plain c => [c]
  | Matched m => group0 m
  end.

(** The chunks put together again, every match replaced by [repl]. *)
Fixpoint assemble (repl : Match -> M text) (chunks : list chunk) : M text :=
  match chunks with
  | [] => ret []
  | Plain c :: rest => r <- assemble repl rest ;; ret (c :: r)
  | Matched m :: rest =>
      r <- repl m ;; r' <- assemble repl rest ;; ret (r ++ r')
  end.

End Re.

(* ================================================================== *)
(** ** [class MarkdownLinkFixer] *)

Module MarkdownLinkFixer.
Import Path.

Record t := mk { base_dir : path; update_links : bool; update_text : bool }.

(** The class [[^]]]. *)
Definition display_char (c : char) : bool := negb (char_eqb c (chr "]")).

(** The class [[^:)]]. *)
Definition target_char (c : char) : bool :=
  negb (char_eqb c (chr ":") || char_eqb c (chr ")")).

(** The end of the pattern: the closing parenthesis of the second group,
    then [\.md\)]. *)
Definition md_tail : Re.pattern :=
  [Re.Mark; Re.Lit (chr "."); Re.Lit (chr "m"); Re.Lit (chr "d"); Re.Lit (chr ")")].

(** [re.compile(r'\[([^]]+)]\(([^:)]+)\.md\)')] *)
Definition md_link_regex : Re.pattern :=
  Re.Lit (chr "[")
  :: Re.Mark :: Re.Plus display_char :: Re.Mark
  :: Re.Lit (chr "]") :: Re.Lit (chr "(")
  :: Re.Mark :: Re.Plus target_char :: md_tail.

(** The text of an inline link with display text [text_] and target
    [path_] followed by the markdown extension. *)
Definition link_text (text_ path_ : text) : text :=
  lit "[" ++ text_ ++ lit "](" ++ path_ ++ lit ".md)".

(** The reference subtree's name. *)
Definition en : text := lit "en".

(** What replacing ["/en/"] by ["/"] in the string of a path does to the
    names that follow its first name: a name [en] that is not the last goes,
    and the name after it stays whatever it is, its separator being used
    up. *)
Fixpoint strip_names (l : list text) : list text :=
  match l with
  | [] => []
  | x :: l' =>
      match l' with
      | [] => [x]
      | y :: l'' =>
          if text_eqb x en then y :: strip_names l'' else x :: strip_names l'
      end
  end.

(** [(parent_dir / path).resolve().with_suffix('.md')] *)
Definition linked_path (fs : FS.t) (parent_dir : path) (path_ : text)
    : result path :=
  match FS.resolve_call fs (div parent_dir path_) with
  | Raise e => Raise e
  | Ok resolved => with_suffix resolved (lit ".md")
  end.

(** [Path(str(linked_path).replace(str(lang_dir), str(lang_dir.parent / 'en')))] *)
Definition en_linked_path (linked : path) (lang_dir : path) : path :=
  parse (replace (str linked) (str lang_dir)
                 (str (div (parent lang_dir) (lit "en")))).

(** The branch [use_abs_link]. *)
Definition updated_path_abs (en_linked lang_dir : path) : result text :=
  match relative_to en_linked (parent lang_dir) with
  | Raise e => Raise e
  | Ok docs_root_relative_path =>
      Ok (replace (str docs_root_relative_path) (lit "en/") (lit "/../"))
  end.

(** The branch of relative links: [steps_up], then the path up to the tree
    root and down to the reference file, then the replacement in its
    string. *)
Definition updated_path_rel (self : t) (parent_dir en_linked : path)
    : result text :=
  match relative_to parent_dir (base_dir self) with
  | Raise e => Raise e
  | Ok rel =>
      let steps_up := length (parts rel) in
      match relative_to en_linked (base_dir self) with
      | Raise e => Raise e
      | Ok down =>
          let updated_path := join_path (parse (times (lit "../") steps_up)) down in
          Ok (replace (str updated_path) (lit "/en/") (lit "/"))
      end
  end.

Definition redirect_line (text_ path_ : text) (parent_dir : path)
    (updated_path : text) : text :=
  lit "Redirecting link '[" ++ text_ ++ lit "](" ++ path_ ++ lit ")' from "
  ++ str parent_dir ++ lit " to " ++ updated_path.

Definition broken_line (text_ path_ : text) (parent_dir : path) : text :=
  lit "Warning: Broken link '[" ++ text_ ++ lit "](" ++ path_
  ++ lit ")' found in " ++ str parent_dir
  ++ lit " does not exist in /docs/en/.".

Definition link_replacer (self : t) (fs : FS.t) (m : Re.Match)
    (parent_dir lang_dir : path) (use_abs_link : bool) : M text :=
  match Re.groups m with
  | [text_; path_] =>
      linked <- lift (linked_path fs parent_dir path_) ;;
      found <- lift (FS.exists_ fs linked) ;;
      if negb found then
        let en_linked := en_linked_path linked lang_dir in
        en_found <- lift (FS.exists_ fs en_linked) ;;
        if en_found then
          updated_path <- lift (if use_abs_link
                                then updated_path_abs en_linked lang_dir
                                else updated_path_rel self parent_dir en_linked) ;;
          print (redirect_line text_ path_ parent_dir updated_path) ;;;
          ret (lit "[" ++ text_ ++ lit "](" ++ updated_path ++ lit ")")
        else
          print (broken_line text_ path_ parent_dir) ;;;
          ret (Re.group0 m)
      else ret (Re.group0 m)
  | _ => raise ValueError
  end.

(** The three ways [link_replacer] leaves a link, read off its branches. *)
Inductive Outcome := Unchanged | Rewritten | Broken.

Definition resolution (fs : FS.t) (m : Re.Match) (parent_dir lang_dir : path)
    : result Outcome :=
  match Re.groups m with
  | [_; path_] =>
      match linked_path fs parent_dir path_ with
      | Raise e => Raise e
      | Ok linked =>
          match FS.exists_ fs linked with
          | Raise e => Raise e
          | Ok true => Ok Unchanged
          | Ok false =>
              match FS.exists_ fs (en_linked_path linked lang_dir) with
              | Raise e => Raise e
              | Ok true => Ok Rewritten
              | Ok false => Ok Broken
              end
          end
      end
  | _ => Raise ValueError
  end.

(** The link step of [process_markdown_file] on the text read from
    [md_file_path]:
    [content = self.md_link_regex.sub(lambda m: self.link_replacer(m, md_file_path.parent, lang_dir), content)]
    when [update_links] is set. *)
Definition process_markdown_file_links (self : t) (fs : FS.t)
    (content : text) (md_file_path lang_dir : path) : M text :=
  if update_links self
  then Re.sub md_link_regex
         (fun m => link_replacer self fs m (parent md_file_path) lang_dir false)
         content
  else ret content.

Section Run.

(** [str.isalnum] of the Unicode database on the code points from 128 on;
    the table is not part of the repository. *)
Variable isalnum : char -> bool.

Definition ascii_alnum (c : char) : bool :=
  ((48 <=? c) && (c <=? 57) || (65 <=? c) && (c <=? 90)
   || (97 <=? c) && (c <=? 122))%N.

(** The class [\w] of a [str] pattern. *)
Definition word_char (c : char) : bool :=
  if (c <? 128)%N then ascii_alnum c || char_eqb c (chr "_") else isalnum c.

(** [r'^\w\w$'] *)
Definition lang_dir_regex : Re.pattern :=
  [Re.Bol; Re.Cls word_char; Re.Cls word_char; Re.Eol].

(** The test of [run] on an entry of the base directory. *)
Definition is_lang_dir (fs : FS.t) (subdir : path) : bool :=
  FS.is_dir fs subdir
  && (match Re.match_ lang_dir_regex (name subdir) with
      | Some _ => true
      | None => false
      end)
  && negb (text_eqb (name subdir) (lit "en")).

(** [process_language_directory] acts on a state [St]. *)
Variable St : Type.
Variable process_language_directory : path -> St -> St.

Definition run (self : t) (fs : FS.t) (st : St) : St :=
  fold_left
    (fun st subdir =>
       if is_lang_dir fs subdir then process_language_directory subdir st
       else st)
    (FS.iterdir fs (base_dir self)) st.

End Run.

End MarkdownLinkFixer.

(* ================================================================== *)
(** ** What the specification says, for comparison with the code *)

Module Spec.
Import Path.

(** The first occurrence of [old] in [s] replaced, later ones left. *)
Fixpoint replace_first (s old new : text) : text :=
  match s with
  | [] => []
  | c :: s' =>
      if startswith (c :: s') old then new ++ skipn (length old - 1) s'
      else c :: replace_first s' old new
  end.

(** The stripping of the specification: only the occurrence of the
    reference name nearest the root goes. *)
Definition strip_reference_once (s : text) : text :=
  replace_first s (lit "/en/") (lit "/").

(** The candidate of the specification: the name segment of the language
    directory replaced by the reference name, nothing else touched. *)
Definition candidate (linked lang_dir : path) : path :=
  if Bool.eqb (root linked) (root lang_dir)
     && is_prefix (names lang_dir) (names linked)
  then {| root := root linked;
          names := removelast (names lang_dir) ++ [lit "en"]
                   ++ skipn (length (names lang_dir)) (names linked) |}
  else linked.

(** An inline link [[text](path.md)] at the head of [s], with [rest] after
    it: the display text is not empty and has no closing bracket; the
    target, before the extension, is not empty and has neither colon nor
    closing parenthesis. *)
Definition link_at (s text_ path_ rest : text) : Prop :=
  s = MarkdownLinkFixer.link_text text_ path_ ++ rest
  /\ text_ <> [] /\ ~ In (chr "]") text_
  /\ path_ <> [] /\ ~ In (chr ":") path_ /\ ~ In (chr ")") path_.

(** The links of a text, from left to right: where a link starts it is
    taken, and the search goes on after its closing parenthesis; where
    none starts, the character is passed. *)
Inductive links : text -> list Re.Match -> Prop :=
| links_end : links [] []
| links_pass c s l :
    (forall text_ path_ rest, ~ link_at (c :: s) text_ path_ rest) ->
    links s l ->
    links (c :: s) l
| links_take s text_ path_ rest l :
    link_at s text_ path_ rest ->
    links rest l ->
    links s (Re.mkMatch (MarkdownLinkFixer.link_text text_ path_) [text_; path_] :: l).

End Spec.

(* ================================================================== *)
(** ** [class Colors] *)

Module Colors.

Local Open Scope Z_scope.

Definition rgb := (Z * Z * Z)%type.

Definition hexs : list text :=
  map lit
    ["FF3838"; "FF9D97"; "FF701F"; "FFB21D"; "CFD231"; "48F90A"; "92CC17";
     "3DDB86"; "1A9334"; "00D4BB"; "2C99A8"; "00C2FF"; "344593"; "6473FF";
     "0018EC"; "8438FF"; "520085"; "CB38FF"; "FF95C8"; "FF37C7"].

(** The value of a hexadecimal digit. *)
Definition hex_digit (c : char) : option Z :=
  if ((48 <=? c) && (c <=? 57))%N then Some (Z.of_N c - 48)
  else if ((65 <=? c) && (c <=? 70))%N then Some (Z.of_N c - 55)
  else if ((97 <=? c) && (c <=? 102))%N then Some (Z.of_N c - 87)
  else None.

(** [int(s, 16)] for a text of hexadecimal digits, as the palette has
    them.  The other texts [int] takes (with a sign, blanks around, an
    underscore between digits, the prefix [0x], digits beyond ASCII) are
    outside this model, which raises on them as on the texts [int]
    refuses. *)
Fixpoint int16_from (acc : Z) (s : text) : result Z :=
  match s with
  | [] => Ok acc
  | c :: s' =>
      match hex_digit c with
      | Some d => int16_from (16 * acc + d) s'
      | None => Raise ValueError
      end
  end.

Definition int16 (s : text) : result Z :=
  match s with
  | [] => Raise ValueError
  | _ :: _ => int16_from 0 s
  end.

(** [h[a:b]] for [0 <= a <= b]. *)
Definition slice (h : text) (a b : nat) : text := firstn (b - a) (skipn a h).

(** [tuple(int(h[1 + i:1 + i + 2], 16) for i in (0, 2, 4))] *)
Definition hex2rgb (h : text) : result rgb :=
  match int16 (slice h (1 + 0) (1 + 0 + 2)) with
  | Raise e => Raise e
  | Ok r =>
      match int16 (slice h (1 + 2) (1 + 2 + 2)) with
      | Raise e => Raise e
      | Ok g =>
          match int16 (slice h (1 + 4) (1 + 4 + 2)) with
          | Raise e => Raise e
          | Ok b => Ok (r, g, b)
          end
      end
  end.

Record t := mk { palette : list rgb; n : Z }.

Fixpoint map_result {A B} (f : A -> result B) (l : list A) : result (list B) :=
  match l with
  | [] => Ok []
  | x :: l' =>
      match f x with
      | Raise e => Raise e
      | Ok y =>
          match map_result f l' with
          | Raise e => Raise e
          | Ok ys => Ok (y :: ys)
          end
      end
  end.

(** [__init__] *)
Definition init : result t :=
  match map_result (fun c => hex2rgb (lit "#" ++ c)) hexs with
  | Raise e => Raise e
  | Ok p => Ok {| palette := p; n := Z.of_nat (length p) |}
  end.

(** [l[k]] for a list and an integer: a negative index counts from the
    end, an index out of range raises. *)
Definition getitem {A} (l : list A) (k : Z) : result A :=
  let len := Z.of_nat (length l) in
  let k' := if k <? 0 then k + len else k in
  if (k' <? 0) || (len <=? k') then Raise IndexError
  else match nth_error l (Z.to_nat k') with
       | Some x => Ok x
       | None => Raise IndexError
       end.

(** [__call__], for an integer [i]: [%] is the floored remainder. *)
Definition call (self : t) (i : Z) (bgr : bool) : result rgb :=
  if n self =? 0 then Raise ZeroDivisionError
  else
    match getitem (palette self) (i mod n self) with
    | Raise e => Raise e
    | Ok c =>
        let '(c0, c1, c2) := c in
        Ok (if bgr then (c2, c1, c0) else c)
    end.

(** [colors = Colors()] *)
Definition colors : result t := init.

End Colors.

(* ================================================================== *)
(** ** Concrete trees *)

Module Example.
Import Path.

Definition P (s : String.string) : path := parse (lit s).

(** The tree of the specification's example: [docs/fr/guides/start.md]
    links to [../install.md], which exists under [en] only. *)
Definition docs : MarkdownLinkFixer.t := MarkdownLinkFixer.mk (P "/docs") true true.
Definition fr : path := P "/docs/fr".
Definition guides : path := P "/docs/fr/guides".
Definition start_md : path := P "/docs/fr/guides/start.md".

Definition tree : FS.t :=
  FS.of_lists
    [P "/docs/fr/guides/start.md"; P "/docs/en/install.md"]
    [P "/docs"; P "/docs/en"; P "/docs/fr"; P "/docs/fr/guides"].

Definition setup_link : Re.Match :=
  Re.mkMatch (lit "[Setup](../install.md)") [lit "Setup"; lit "../install"].
Definition api_link : Re.Match :=
  Re.mkMatch (lit "[API](../api/missing.md)") [lit "API"; lit "../api/missing"].

(** A link to the root of the file system. *)
Definition root_link : Re.Match :=
  Re.mkMatch (lit "[t](/.md)") [lit "t"; lit "/"].

Definition start_text : text :=
  lit "See [Setup](../install.md), [API](../api/missing.md) and [Start](start.md).".

(** The text and the first link after a pass over [start_text]. *)
Definition start_text_fixed : text :=
  lit "See [Setup](../../install.md), [API](../api/missing.md) and [Start](start.md).".
Definition setup_link_fixed : Re.Match :=
  Re.mkMatch (lit "[Setup](../../install.md)") [lit "Setup"; lit "../../install"].

(** A tree whose reference subtree has directories named [fr] and [en]
    of its own. *)
Definition a_md : path := P "/docs/fr/a.md".

Definition nested_tree : FS.t :=
  FS.of_lists
    [P "/docs/fr/a.md"; P "/docs/en/fr/x.md"; P "/docs/en/x.md";
     P "/docs/en/a/en/x.md"]
    [P "/docs"; P "/docs/en"; P "/docs/fr"; P "/docs/en/fr"; P "/docs/en/a";
     P "/docs/en/a/en"].

Definition fr_x_link : Re.Match :=
  Re.mkMatch (lit "[t](fr/x.md)") [lit "t"; lit "fr/x"].
Definition a_en_x_link : Re.Match :=
  Re.mkMatch (lit "[t](a/en/x.md)") [lit "t"; lit "a/en/x"].

(** A base directory with, among others, a subdirectory whose name is
    two letters and a line feed. *)
Definition ab_newline : path := mk true [lit "docs"; lit "ab" ++ [newline]].

Definition listing : FS.t :=
  FS.of_lists
    [P "/docs/index.md"; P "/docs/zz"]
    [P "/docs"; P "/docs/en"; P "/docs/fr"; ab_newline; P "/docs/x";
     P "/docs/assets"; P "/docs/a-"].

End Example.

(* ================================================================== *)
(** ** String literals of the source beyond ASCII *)

Module Utf8.

(** The code points a sequence of UTF-8 bytes stands for.  The source
    file is UTF-8, so this gives the characters of a literal written in
    it. *)
Fixpoint decode (bytes : list N) : text :=
  match bytes with
  | [] => []
  | b0 :: r0 =>
      if (b0 <? 128)%N then b0 :: decode r0
      else
        match r0 with
        | [] => []
        | b1 :: r1 =>
            if (b0 <? 224)%N
            then ((b0 - 192) * 64 + (b1 - 128))%N :: decode r1
            else
              match r1 with
              | [] => []
              | b2 :: r2 =>
                  if (b0 <? 240)%N
                  then ((b0 - 224) * 4096 + (b1 - 128) * 64 + (b2 - 128))%N
                       :: decode r2
                  else
                    match r2 with
                    | [] => []
                    | b3 :: r3 =>
                        ((b0 - 240) * 262144 + (b1 - 128) * 4096
                         + (b2 - 128) * 64 + (b3 - 128))%N :: decode r3
                    end
              end
        end
  end.

(** A string literal of the source with characters beyond ASCII. *)
Definition ulit (s : String.string) : text :=
  decode (map N_of_ascii (String.list_ascii_of_string s)).

End Utf8.
Import Utf8.

(* ================================================================== *)
(** ** Regular expressions without groups *)

Module Rx.

(** The items of the patterns of the text passes. *)
Inductive item :=
| One (p : char -> bool)        (* one character of a class *)
| Star (p : char -> bool)       (* class*, greedy *)
| LazyPlus (p : char -> bool)   (* class+?, lazy *)
| NotAhead (l : text).          (* (?!literal) *)

Definition pattern := list item.

(** A sequence of literal characters. *)
Definition lits (l : text) : pattern := map (fun c => One (char_eqb c)) l.

(** Backtracking of a greedy star: the longest length first, down to
    none. *)
Fixpoint try_from {A} (f : nat -> option A) (n : nat) : option A :=
  match n with
  | O => f 0
  | S k =>
      match f (S k) with
      | Some r => Some r
      | None => try_from f k
      end
  end.

(** Backtracking of a lazy repetition: the lengths from [k] on, [todo] of
    them. *)
Fixpoint try_up {A} (f : nat -> option A) (k todo : nat) : option A :=
  match todo with
  | O => None
  | S t =>
      match f k with
      | Some r => Some r
      | None => try_up f (S k) t
      end
  end.

(** The matcher: [pos] characters are consumed, [s] is left; the result
    is the end position. *)
Fixpoint exec (its : pattern) (pos : nat) (s : text) : option nat :=
  match its with
  | [] => Some pos
  | One p :: its' =>
      match s with
      | x :: s' => if p x then exec its' (S pos) s' else None
      | [] => None
      end
  | Star p :: its' =>
      try_from (fun k => exec its' (pos + k) (skipn k s)) (Re.run p s)
  | LazyPlus p :: its' =>
      try_up (fun k => exec its' (pos + k) (skipn k s)) 1 (Re.run p s)
  | NotAhead l :: its' =>
      if startswith s l then None else exec its' pos s
  end.

(** The length of the match at the head of [s], if there is one. *)
Definition match_len (re : pattern) (s : text) : option nat := exec re 0 s.

(** The scan of [re.sub(pattern, repl, s)] for a replacement without
    escapes: as [Re.sub_from], with the same text put in place of every
    match. *)
Fixpoint sub_from (re : pattern) (repl : text) (skip : nat) (s : text) : text :=
  match s with
  | [] =>
      match skip with
      | O => match match_len re [] with
             | Some _ => repl
             | None => []
             end
      | S _ => []
      end
  | c :: s' =>
      match skip with
      | S k => sub_from re repl k s'
      | O =>
          match match_len re (c :: s') with
          | Some O => repl ++ c :: sub_from re repl 0 s'
          | Some (S k) => repl ++ sub_from re repl k s'
          | None => c :: sub_from re repl 0 s'
          end
      end
  end.

Definition sub (re : pattern) (repl : text) (s : text) : text :=
  sub_from re repl 0 s.

End Rx.

(* ================================================================== *)
(** ** The text passes of [MarkdownLinkFixer] *)

Module TextPasses.

(** The double quote. *)
Definition quote : char := 34%N.

(** The class [.]: any character but the line feed. *)
Definition any_char (c : char) : bool := negb (char_eqb c newline).

Definition space (c : char) : bool := char_eqb c (chr " ").

(** The class [[：:]]: the colon and the full-width colon U+FF1A. *)
Definition colon (c : char) : bool := char_eqb c (chr ":") || char_eqb c 65306%N.

Definition english_permissions : text :=
  lit "accelerometer; autoplay; clipboard-write; encrypted-media; gyroscope; picture-in-picture; web-share".

(** The text [allow=] followed by a double quote. *)
Definition allow_open : text := lit "allow=" ++ [quote].

(** The pattern compiled in [update_iframe]: [allow=], a double quote,
    [(?!{re.escape(english_permissions)})], [.+?] and a double quote; the
    escaped permissions match themselves. *)
Definition iframe_pattern : Rx.pattern :=
  Rx.lits allow_open
  ++ [Rx.NotAhead english_permissions; Rx.LazyPlus any_char;
      Rx.One (char_eqb quote)].

(** The replacement: [allow=] and the permissions between double
    quotes. *)
Definition english_allow : text := allow_open ++ english_permissions ++ [quote].

Definition update_iframe (content : text) : text :=
  Rx.sub iframe_pattern english_allow content.

Section IgnoreCase.

(** [ignorecase c x]: under [re.IGNORECASE] the character [x] of the
    subject matches the literal [c] of a pattern.  The case tables of the
    Unicode database are not part of the repository. *)
Variable ignorecase : char -> char -> bool.

(** A term put into a pattern: of the characters the terms hold, only the
    dot is special. *)
Definition term_items (term : text) : Rx.pattern :=
  map (fun c => if char_eqb c (chr ".") then Rx.One any_char
                else Rx.One (ignorecase c))
      term.

Definition front_matter_english : list text :=
  [lit "comments"; lit "description"; lit "keywords"].

Definition front_matter_translations : list (list text) :=
  [ (* zh *)
    [ulit "评论"; ulit "描述"; ulit "关键词"];
    (* es *)
    [ulit "comentarios"; ulit "descripción"; ulit "palabras clave"];
    (* ru *)
    [ulit "комментарии"; ulit "описание"; ulit "ключевые слова"];
    (* pt *)
    [ulit "comentários"; ulit "descrição"; ulit "palavras-chave"];
    (* fr *)
    [ulit "commentaires"; ulit "description"; ulit "mots-clés"];
    (* de *)
    [ulit "Kommentare"; ulit "Beschreibung"; ulit "Schlüsselwörter"];
    (* ja *)
    [ulit "コメント"; ulit "説明"; ulit "キーワード"];
    (* ko *)
    [ulit "댓글"; ulit "설명"; ulit "키워드"];
    (* hi *)
    [ulit "टिप्पणियाँ"; ulit "विवरण"; ulit "कीवर्ड"];
    (* ar *)
    [ulit "التعليقات"; ulit "الوصف"; ulit "الكلمات الرئيسية"] ].

(** [rf'{term} *[：:].*'] *)
Definition comments_pattern (term : text) : Rx.pattern :=
  term_items term ++ [Rx.Star space; Rx.One colon; Rx.Star any_char].

(** [rf'{term} *[：:] *'] *)
Definition key_pattern (term : text) : Rx.pattern :=
  term_items term ++ [Rx.Star space; Rx.One colon; Rx.Star space].

(** The body of the inner loop of [replace_front_matter]. *)
Definition front_matter_step (content : text) (pair : text * text) : text :=
  let (term, eng_key) := pair in
  if text_eqb eng_key (lit "comments")
  then Rx.sub (comments_pattern term) (eng_key ++ lit ": true") content
  else Rx.sub (key_pattern term) (eng_key ++ lit ": ") content.

Definition replace_front_matter (content : text) : text :=
  fold_left
    (fun content terms =>
       fold_left front_matter_step (combine terms front_matter_english) content)
    front_matter_translations content.

Definition admonition_english : list text :=
  [lit "note"; lit "summary"; lit "tip"; lit "info"; lit "success";
   lit "question"; lit "warning"; lit "failure"; lit "danger"; lit "bug";
   lit "example"; lit "quote"; lit "abstract"; lit "seealso"; lit "admonition"].

Definition admonition_translations : list (list text) :=
  [ (* zh *)
    [ulit "笔记"; ulit "摘要"; ulit "提示"; ulit "信息"; ulit "成功"; ulit "问题";
     ulit "警告"; ulit "失败"; ulit "危险"; ulit "故障"; ulit "示例"; ulit "引用";
     ulit "摘要"; ulit "另见"; ulit "警告"];
    (* es *)
    [ulit "nota"; ulit "resumen"; ulit "consejo"; ulit "información";
     ulit "éxito"; ulit "pregunta"; ulit "advertencia"; ulit "fracaso";
     ulit "peligro"; ulit "error"; ulit "ejemplo"; ulit "cita";
     ulit "abstracto"; ulit "véase también"; ulit "amonestación"];
    (* ru *)
    [ulit "заметка"; ulit "сводка"; ulit "совет"; ulit "информация";
     ulit "успех"; ulit "вопрос"; ulit "предупреждение"; ulit "неудача";
     ulit "опасность"; ulit "ошибка"; ulit "пример"; ulit "цитата";
     ulit "абстракт"; ulit "см. также"; ulit "предостережение"];
    (* pt *)
    [ulit "nota"; ulit "resumo"; ulit "dica"; ulit "informação";
     ulit "sucesso"; ulit "questão"; ulit "aviso"; ulit "falha";
     ulit "perigo"; ulit "bug"; ulit "exemplo"; ulit "citação";
     ulit "abstrato"; ulit "veja também"; ulit "advertência"];
    (* fr *)
    [ulit "note"; ulit "résumé"; ulit "conseil"; ulit "info"; ulit "succès";
     ulit "question"; ulit "avertissement"; ulit "échec"; ulit "danger";
     ulit "bug"; ulit "exemple"; ulit "citation"; ulit "abstrait";
     ulit "voir aussi"; ulit "admonestation"];
    (* de *)
    [ulit "hinweis"; ulit "zusammenfassung"; ulit "tipp"; ulit "info";
     ulit "erfolg"; ulit "frage"; ulit "warnung"; ulit "ausfall";
     ulit "gefahr"; ulit "fehler"; ulit "beispiel"; ulit "zitat";
     ulit "abstrakt"; ulit "siehe auch"; ulit "ermahnung"];
    (* ja *)
    [ulit "ノート"; ulit "要約"; ulit "ヒント"; ulit "情報"; ulit "成功"; ulit "質問";
     ulit "警告"; ulit "失敗"; ulit "危険"; ulit "バグ"; ulit "例"; ulit "引用";
     ulit "抄録"; ulit "参照"; ulit "訓告"];
    (* ko *)
    [ulit "노트"; ulit "요약"; ulit "팁"; ulit "정보"; ulit "성공"; ulit "질문";
     ulit "경고"; ulit "실패"; ulit "위험"; ulit "버그"; ulit "예제"; ulit "인용";
     ulit "추상"; ulit "참조"; ulit "경고"];
    (* hi *)
    [ulit "नोट"; ulit "सारांश"; ulit "सुझाव"; ulit "जानकारी"; ulit "सफलता";
     ulit "प्रश्न"; ulit "चेतावनी"; ulit "विफलता"; ulit "खतरा"; ulit "बग";
     ulit "उदाहरण"; ulit "उद्धरण"; ulit "सार"; ulit "देखें भी"; ulit "आगाही"];
    (* ar *)
    [ulit "ملاحظة"; ulit "ملخص"; ulit "نصيحة"; ulit "معلومات"; ulit "نجاح";
     ulit "سؤال"; ulit "تحذير"; ulit "فشل"; ulit "خطر"; ulit "عطل";
     ulit "مثال"; ulit "اقتباس"; ulit "ملخص"; ulit "انظر أيضاً"; ulit "تحذير"] ].

(** [rf'!!! *{term}'] *)
Definition admonition_pattern (term : text) : Rx.pattern :=
  Rx.lits (lit "!!!") ++ [Rx.Star space] ++ term_items term.

(** The body of the inner loop of [replace_admonitions]. *)
Definition admonition_step (content : text) (pair : text * text) : text :=
  let (term, eng_key) := pair in
  Rx.sub (admonition_pattern term) (lit "!!! " ++ eng_key) content.

Definition replace_admonitions (content : text) : text :=
  fold_left
    (fun content terms =>
       fold_left admonition_step (combine terms admonition_english) content)
    admonition_translations content.

End IgnoreCase.

End TextPasses.

(* ================================================================== *)
(** ** The walk over the tree *)

Module Walker.
Import Path.

(** Why a run ends early. *)
Inductive failure :=
| PyExn (e : exn)      (* an exception of the link pass *)
| FileNotFoundError    (* [open]: nothing is at the path *)
| PermissionError      (* [open]: the access is refused *)
| IsADirectoryError    (* [open]: a directory is at the path *)
| UnicodeDecodeError   (* [read]: the bytes of the file are not UTF-8 *)
| UnicodeEncodeError   (* [write]: the text holds a surrogate *)
| DeviceError.         (* [write] or the closing of the file: [OSError] of
                          the device, such as no space left *)

(** What is at a path: nothing, a directory, or a file.  The data of a
    file are the text its bytes stand for in UTF-8, line ends as they are
    in the file, or [None] when the bytes are not UTF-8.  Other kinds of
    files are left out. *)
Inductive node :=
| Absent
| Directory
| File (data : option text).

(** The tree of files, and what has been printed. *)
Record state := mkState {
  files : path -> node;
  printed : list text
}.

Definition put (fs : path -> node) (p : path) (n : node) : path -> node :=
  fun q => if path_eqb q p then n else fs q.

(** The carriage return. *)
Definition cr : char := 13%N.

(** A file opened in text mode is read with the line ends [\r\n] and
    [\r] turned into [\n]. *)
Fixpoint universal_newlines (s : text) : text :=
  match s with
  | [] => []
  | c :: s' =>
      if char_eqb c cr
      then newline
           :: match s' with
              | d :: s'' =>
                  if char_eqb d newline then universal_newlines s''
                  else universal_newlines s'
              | [] => []
              end
      else c :: universal_newlines s'
  end.

(** The code points that UTF-8 does not encode. *)
Definition surrogate (c : char) : bool := ((55296 <=? c) && (c <=? 57343))%N.

Section Walk.

Variable ignorecase : char -> char -> bool.
Variable isalnum : char -> bool.

(** [lang_dir.rglob('*.md')], in the order given. *)
Variable rglob_md : path -> list path.

(** Whether the process may read, and may write, what is at a path. *)
Variable may_read : path -> bool.
Variable may_write : path -> bool.

(** What the device does with a text written to a file: [None] when it
    takes it all, and otherwise the data it leaves in the file when the
    write fails. *)
Variable device : path -> text -> option (option text).

(** [open(p, encoding='utf-8')] and [file.read()] *)
Definition read_text (st : state) (p : path) : failure + text :=
  match files st p with
  | Absent => inl FileNotFoundError
  | Directory => inl (if may_read p then IsADirectoryError else PermissionError)
  | File data =>
      if may_read p then
        match data with
        | Some raw => inr (universal_newlines raw)
        | None => inl UnicodeDecodeError
        end
      else inl PermissionError
  end.

(** [open(p, 'w', encoding='utf-8')], [file.write(content)] and the
    closing of the file, for a file that is there: once opened the file is
    empty; the text is encoded as a whole, and then written. *)
Definition write_text (st : state) (p : path) (content : text)
    : (path -> node) * option failure :=
  if may_write p then
    if existsb surrogate content
    then (put (files st) p (File (Some [])), Some UnicodeEncodeError)
    else match device p content with
         | Some kept => (put (files st) p (File kept), Some DeviceError)
         | None => (put (files st) p (File (Some content)), None)
         end
  else (files st, Some PermissionError).

Definition process_markdown_file (self : MarkdownLinkFixer.t) (fs : FS.t)
    (md_file_path lang_dir : path) (st : state) : state * option failure :=
  let out0 := printed st ++ [lit "Processing file: " ++ str md_file_path] in
  match read_text st md_file_path with
  | inl f => ({| files := files st; printed := out0 |}, Some f)
  | inr content =>
      let (out, r) :=
        MarkdownLinkFixer.process_markdown_file_links
          self fs content md_file_path lang_dir in
      match r with
      | Raise e =>
          ({| files := files st; printed := out0 ++ out |}, Some (PyExn e))
      | Ok content1 =>
          let content2 :=
            if MarkdownLinkFixer.update_text self
            then TextPasses.update_iframe
                   (TextPasses.replace_admonitions ignorecase
                      (TextPasses.replace_front_matter ignorecase content1))
            else content1 in
          let (files', f) := write_text st md_file_path content2 in
          ({| files := files'; printed := out0 ++ out |}, f)
      end
  end.

(** The loop over the files, left at the first failure. *)
Fixpoint process_files (self : MarkdownLinkFixer.t) (fs : FS.t)
    (lang_dir : path) (md_files : list path) (st : state)
    : state * option failure :=
  match md_files with
  | [] => (st, None)
  | md_file :: rest =>
      match process_markdown_file self fs md_file lang_dir st with
      | (st', None) => process_files self fs lang_dir rest st'
      | (st', Some f) => (st', Some f)
      end
  end.

Definition process_language_directory (self : MarkdownLinkFixer.t) (fs : FS.t)
    (lang_dir : path) (st : state) : state * option failure :=
  process_files self fs lang_dir (rglob_md lang_dir)
    {| files := files st;
       printed := printed st
                  ++ [lit "Processing language directory: " ++ str lang_dir] |}.

(** [run], with [process_language_directory] as above; after a failure
    nothing more is done. *)
Definition run (self : MarkdownLinkFixer.t) (fs : FS.t) (st : state)
    : state * option failure :=
  MarkdownLinkFixer.run isalnum (state * option failure)
    (fun subdir acc =>
       match acc with
       | (st, None) => process_language_directory self fs subdir st
       | (st, Some f) => (st, Some f)
       end)
    self fs (st, None).

End Walk.

End Walker.

(* ================================================================== *)
(** * Properties *)

Import Path.
Module MLF := MarkdownLinkFixer.

Arguments char_eqb : simpl never.
Arguments chr : simpl never.

(** ** Characters and strings *)

Lemma char_eqb_eq (a b : char) : char_eqb a b = true <-> a = b.
Proof. apply N.eqb_eq. Qed.

Lemma char_eqb_neq (a b : char) : char_eqb a b = false <-> a <> b.
Proof. apply N.eqb_neq. Qed.

Lemma char_eqb_refl (a : char) : char_eqb a a = true.
Proof. apply N.eqb_refl. Qed.

Lemma text_eqb_eq (a b : text) : text_eqb a b = true <-> a = b.
Proof.
  revert b; induction a as [|x a IH]; intros [|y b]; simpl;
    try (split; [discriminate | discriminate]); try tauto.
  rewrite andb_true_iff, char_eqb_eq, IH.
  split; [intros [-> ->]; reflexivity | intros H; inversion H; auto].
Qed.

Lemma text_eqb_refl (a : text) : text_eqb a a = true.
Proof. apply text_eqb_eq; reflexivity. Qed.

Lemma text_eqb_neq (a b : text) : text_eqb a b = false <-> a <> b.
Proof.
  rewrite <- text_eqb_eq. destruct (text_eqb a b); split; congruence.
Qed.

Lemma startswith_app (p s : text) : startswith (p ++ s) p = true.
Proof.
  induction p as [|y p IH]; simpl; [reflexivity|].
  now rewrite char_eqb_refl, IH.
Qed.

Lemma startswith_inv (s p : text) :
  startswith s p = true -> exists r, s = p ++ r.
Proof.
  revert s; induction p as [|y p IH]; intros s H; simpl in *.
  - now exists s.
  - destruct s as [|x s]; [discriminate|].
    apply andb_true_iff in H as [Hc Hs]. apply char_eqb_eq in Hc; subst.
    destruct (IH _ Hs) as [r ->]. now exists r.
Qed.

(** ** The monad *)

Lemma bind_ret_l {A B} (a : A) (f : A -> M B) : bind (ret a) f = f a.
Proof. unfold bind, ret; simpl. now destruct (f a). Qed.

Lemma outcome_bind_ok {A B} (m : M A) (f : A -> M B) (a : A) :
  outcome m = Ok a -> outcome (bind m f) = outcome (f a).
Proof.
  destruct m as [out r]; simpl; intros ->. simpl. now destruct (f a).
Qed.

Lemma output_bind_ok {A B} (m : M A) (f : A -> M B) (a : A) :
  outcome m = Ok a -> output (bind m f) = output m ++ output (f a).
Proof.
  destruct m as [out r]; simpl; intros ->. simpl. now destruct (f a).
Qed.

(** ** The palette *)

Lemma getitem_in_range {A} (l : list A) (k : Z) :
  (0 <= k < Z.of_nat (length l))%Z ->
  exists x, Colors.getitem l k = Ok x /\ nth_error l (Z.to_nat k) = Some x.
Proof.
  intros Hk. unfold Colors.getitem.
  destruct (Z.ltb_spec k 0) as [H|H]; [lia|].
  destruct (Z.ltb_spec k 0) as [H'|H']; [lia|].
  destruct (Z.leb_spec (Z.of_nat (length l)) k) as [H2|H2]; [lia|]. simpl.
  destruct (nth_error l (Z.to_nat k)) as [x|] eqn:E.
  - now exists x.
  - apply nth_error_None in E. lia.
Qed.

(** C10: whatever the integer index and the [bgr] flag, [Colors.__call__]
    returns a triple; the index is reduced modulo the length 20 of the
    palette, so the lookup is in range and the triple for [bgr=False] is
    an entry of the palette; the triple for [bgr=True] is the same entry
    with its channels reversed. *)
Theorem palette_indexing_total :
  exists self,
    Colors.colors = Ok self
    /\ length (Colors.palette self) = 20
    /\ Colors.n self = 20%Z
    /\ forall i : Z,
         (0 <= i mod 20 < 20)%Z
         /\ exists c0 c1 c2,
              nth_error (Colors.palette self) (Z.to_nat (i mod 20)) = Some (c0, c1, c2)
              /\ In (c0, c1, c2) (Colors.palette self)
              /\ Colors.call self i false = Ok (c0, c1, c2)
              /\ Colors.call self i true = Ok (c2, c1, c0).
Proof.
  destruct Colors.colors as [self|e] eqn:E; [|vm_compute in E; discriminate].
  exists self. split; [reflexivity|].
  assert (Hlen : length (Colors.palette self) = 20)
    by (vm_compute in E; injection E as <-; reflexivity).
  assert (Hn : Colors.n self = 20%Z)
    by (vm_compute in E; injection E as <-; reflexivity).
  repeat split; try assumption; try (apply Z.mod_pos_bound; lia).
  destruct (getitem_in_range (Colors.palette self) (i mod 20)) as [[[c0 c1] c2] [Hg Hn']].
  { rewrite Hlen. apply Z.mod_pos_bound; lia. }
  exists c0, c1, c2. unfold Colors.call. rewrite Hn. simpl (20 =? 0)%Z. cbv iota.
  rewrite Hg. repeat split; auto.
  eapply nth_error_In; eauto.
Qed.

(** ** Monad laws *)

Lemma bind_ext {A B} (m : M A) (f g : A -> M B) :
  (forall a, f a = g a) -> bind m f = bind m g.
Proof. intros H. destruct m as [out [a|e]]; simpl; [now rewrite H | reflexivity]. Qed.

Lemma bind_ret_r {A} (m : M A) : bind m ret = m.
Proof. destruct m as [out [a|e]]; simpl; [now rewrite app_nil_r | reflexivity]. Qed.

Lemma bind_assoc {A B C} (m : M A) (f : A -> M B) (g : B -> M C) :
  bind (bind m f) g = bind m (fun a => bind (f a) g).
Proof.
  destruct m as [out [a|e]]; simpl; [|reflexivity].
  destruct (f a) as [out' [b|e']]; simpl; [|reflexivity].
  destruct (g b) as [out'' r]. now rewrite app_assoc.
Qed.

(** ** The scan of [sub] *)

Arguments bind : simpl never.
Arguments ret : simpl never.

Section Scan.

Variable re : Re.pattern.
Variable repl : Re.Match -> M text.

Lemma match_at_group0 bos s m :
  Re.match_at re bos s = Some m -> exists e, Re.group0 m = firstn e s.
Proof.
  unfold Re.match_at. destruct (Re.exec re bos 0 s []) as [[e marks]|]; [|discriminate].
  intros [= <-]. now exists e.
Qed.

Lemma firstn_length_firstn {A} (e : nat) (l : list A) :
  firstn (length (firstn e l)) l = firstn e l.
Proof.
  revert l; induction e as [|e IH]; intros [|x l]; simpl; try reflexivity.
  now rewrite IH.
Qed.

(** [sub] is the scan of the subject followed by the replacement of the
    matches found. *)
Lemma sub_from_assemble bos skip s :
  Re.sub_from re repl bos skip s = Re.assemble repl (Re.scan_from re bos skip s).
Proof.
  revert bos skip; induction s as [|c s IH]; intros bos skip; simpl.
  - destruct skip; [|reflexivity].
    destruct (Re.match_at re bos []) as [m|]; simpl; [|reflexivity].
    rewrite <- (bind_ret_r (repl m)) at 1. apply bind_ext; intros r.
    rewrite bind_ret_l. now rewrite app_nil_r.
  - destruct skip as [|k]; [|apply IH].
    destruct (Re.match_at re bos (c :: s)) as [m|]; simpl.
    + destruct (length (Re.group0 m)) as [|k]; simpl; apply bind_ext; intros r.
      * rewrite IH, bind_assoc. apply bind_ext; intros r'. now rewrite bind_ret_l.
      * now rewrite IH.
    + now rewrite IH.
Qed.

(** The chunks of the scan, put side by side, are the subject again. *)
Lemma scan_from_text bos skip s :
  flat_map Re.chunk_text (Re.scan_from re bos skip s) = skipn skip s.
Proof.
  revert bos skip; induction s as [|c s IH]; intros bos skip; simpl.
  - destruct skip; simpl; [|reflexivity].
    destruct (Re.match_at re bos []) as [m|] eqn:E; simpl; [|reflexivity].
    destruct (match_at_group0 _ _ _ E) as [e ->]. now rewrite firstn_nil.
  - destruct skip as [|k]; [|apply IH].
    destruct (Re.match_at re bos (c :: s)) as [m|] eqn:E; simpl.
    + destruct (match_at_group0 _ _ _ E) as [e He].
      destruct (length (Re.group0 m)) as [|k] eqn:L; simpl.
      * rewrite IH. apply length_zero_iff_nil in L. now rewrite L.
      * rewrite IH. rewrite He in L |- *.
        rewrite <- (firstn_length_firstn e (c :: s)), L.
        change (firstn (S k) (c :: s) ++ skipn (S k) (c :: s) = c :: s).
        apply firstn_skipn.
    + now rewrite IH.
Qed.

(** Characters passed over inside a match are not looked at. *)
Lemma sub_from_skip k s :
  k <= length s ->
  Re.sub_from re repl false k s = Re.sub_from re repl false 0 (skipn k s).
Proof.
  revert s; induction k as [|k IH]; intros s Hk; [reflexivity|].
  destruct s as [|c s]; simpl in *; [lia|]. apply IH. lia.
Qed.

(** At a match that is not empty, the replacement is put in place and the
    scan goes on after the match. *)
Lemma sub_from_at_match bos s m :
  Re.match_at re bos s = Some m ->
  Re.group0 m <> [] ->
  Re.sub_from re repl bos 0 s =
    (r <- repl m ;;
     rest <- Re.sub_from re repl false 0 (skipn (length (Re.group0 m)) s) ;;
     ret (r ++ rest)).
Proof.
  intros E Hne. destruct (match_at_group0 _ _ _ E) as [e He].
  destruct s as [|c s].
  - rewrite He, firstn_nil in Hne. congruence.
  - simpl Re.sub_from. rewrite E.
    destruct (length (Re.group0 m)) as [|k] eqn:L.
    + apply length_zero_iff_nil in L. congruence.
    + apply bind_ext; intros r. rewrite sub_from_skip; [reflexivity|].
      rewrite He, length_firstn in L. simpl in L. lia.
Qed.

(** When the replacement gives every match back as it is, so does [sub]
    the subject. *)
Lemma assemble_identity chunks :
  (forall m, In (Re.Matched m) chunks -> outcome (repl m) = Ok (Re.group0 m)) ->
  outcome (Re.assemble repl chunks) = Ok (flat_map Re.chunk_text chunks).
Proof.
  induction chunks as [|[c|m] chunks IH]; intros H; simpl.
  - reflexivity.
  - rewrite (outcome_bind_ok _ _ (flat_map Re.chunk_text chunks)).
    + reflexivity.
    + apply IH. intros m Hm. apply H. now right.
  - rewrite (outcome_bind_ok _ _ (Re.group0 m)); [|apply H; now left].
    rewrite (outcome_bind_ok _ _ (flat_map Re.chunk_text chunks)).
    + reflexivity.
    + apply IH. intros m' Hm. apply H. now right.
Qed.

End Scan.

Lemma finditer_matched re s m :
  In m (Re.finditer re s) <-> In (Re.Matched m) (Re.scan re s).
Proof.
  unfold Re.finditer. rewrite in_flat_map. split.
  - intros [[c|m'] [Hin Hm]]; simpl in Hm; [tauto|].
    destruct Hm as [->|[]]. exact Hin.
  - intros H. exists (Re.Matched m). split; [exact H | now left].
Qed.

(** ** The matcher on the link pattern *)

Lemma skipn_app_length {A} (a b : list A) : skipn (length a) (a ++ b) = b.
Proof. induction a; simpl; auto. Qed.

Lemma firstn_app_length {A} (a b : list A) : firstn (length a) (a ++ b) = a.
Proof. induction a; simpl; [reflexivity | f_equal; auto]. Qed.

Lemma skipn_app_plus {A} (a b : list A) k :
  skipn (length a + k) (a ++ b) = skipn k b.
Proof. induction a; simpl; auto. Qed.

Lemma exec_lit c its bos pos s marks r :
  Re.exec (Re.Lit c :: its) bos pos s marks = Some r <->
  exists s', s = c :: s' /\ Re.exec its bos (S pos) s' marks = Some r.
Proof.
  simpl. destruct s as [|x s'].
  - split; [discriminate | intros [s' [H _]]; discriminate].
  - destruct (char_eqb x c) eqn:E.
    + apply char_eqb_eq in E; subst x. split.
      * intros H. now exists s'.
      * intros [s0 [[= <-] H]]. exact H.
    + apply char_eqb_neq in E. split; [discriminate|].
      intros [s0 [[= -> _] _]]. congruence.
Qed.

Lemma run_le p s : Re.run p s <= length s.
Proof. induction s as [|c s IH]; simpl; [lia|]. destruct (p c); simpl; lia. Qed.

Lemma run_firstn p s k : k <= Re.run p s -> forallb p (firstn k s) = true.
Proof.
  revert k; induction s as [|c s IH]; intros k Hk; simpl in *.
  - now rewrite firstn_nil.
  - destruct k as [|k]; [reflexivity|]. simpl.
    destruct (p c); [|lia]. simpl. apply IH. lia.
Qed.

Lemma run_app p a b :
  forallb p a = true -> Re.run p (a ++ b) = length a + Re.run p b.
Proof.
  induction a as [|c a IH]; simpl; [reflexivity|].
  intros H. apply andb_true_iff in H as [-> H]. now rewrite IH.
Qed.

Lemma try_down_some {A} (f : nat -> option A) n r :
  Re.try_down f n = Some r -> exists k, 1 <= k <= n /\ f k = Some r.
Proof.
  induction n as [|n IH]; simpl; [discriminate|].
  destruct (f (S n)) as [r'|] eqn:E.
  - intros [= <-]. exists (S n). split; [lia | exact E].
  - intros H. destruct (IH H) as [k [Hk Hf]]. exists k. split; [lia | exact Hf].
Qed.

Lemma try_down_hit {A} (f : nat -> option A) n r :
  f (S n) = Some r -> Re.try_down f (S n) = Some r.
Proof. intros H; simpl; now rewrite H. Qed.

Lemma try_down_miss {A} (f : nat -> option A) n :
  f (S n) = None -> Re.try_down f (S n) = Re.try_down f n.
Proof. intros H; simpl; now rewrite H. Qed.

Lemma exec_md_tail bos pos s marks r :
  Re.exec MLF.md_tail bos pos s marks = Some r <->
  exists rest, s = lit ".md)" ++ rest /\ r = (pos + 4, pos :: marks).
Proof.
  unfold MLF.md_tail.
  change (Re.exec (Re.Mark :: ?its) bos pos s marks)
    with (Re.exec its bos pos s (pos :: marks)).
  rewrite exec_lit. split.
  - intros (s1 & -> & H). apply exec_lit in H as (s2 & -> & H).
    apply exec_lit in H as (s3 & -> & H). apply exec_lit in H as (s4 & -> & H).
    simpl in H. injection H as <-. exists s4. split; [reflexivity|].
    f_equal. lia.
  - intros (rest & -> & ->). exists (lit "md)" ++ rest). split; [reflexivity|].
    simpl. do 2 f_equal. lia.
Qed.

Lemma exec_path_group bos pos s marks r :
  Re.exec (Re.Mark :: Re.Plus MLF.target_char :: MLF.md_tail) bos pos s marks = Some r <->
  exists path_ rest,
    s = path_ ++ lit ".md)" ++ rest /\ path_ <> []
    /\ forallb MLF.target_char path_ = true
    /\ r = (pos + length path_ + 4, (pos + length path_) :: pos :: marks).
Proof.
  change (Re.exec (Re.Mark :: Re.Plus MLF.target_char :: MLF.md_tail) bos pos s marks)
    with (Re.try_down
            (fun k => Re.exec MLF.md_tail bos (pos + k) (skipn k s) (pos :: marks))
            (Re.run MLF.target_char s)).
  split.
  - intros H. apply try_down_some in H as [k [Hk H]].
    apply exec_md_tail in H as [rest [Hs ->]].
    exists (firstn k s), rest.
    assert (Hlen : length (firstn k s) = k).
    { rewrite length_firstn. pose proof (run_le MLF.target_char s). lia. }
    rewrite Hlen. repeat split.
    + rewrite <- Hs. symmetry. apply firstn_skipn.
    + intros E. rewrite E in Hlen. simpl in Hlen. lia.
    + apply run_firstn. lia.
  - intros [path_ [rest [-> [Hne [Hall ->]]]]].
    rewrite run_app by exact Hall.
    replace (Re.run MLF.target_char (lit ".md)" ++ rest)) with 3 by reflexivity.
    replace (length path_ + 3) with (S (S (S (length path_)))) by lia.
    rewrite try_down_miss.
    2:{ replace (S (S (S (length path_)))) with (length path_ + 3) by lia.
        rewrite skipn_app_plus. reflexivity. }
    rewrite try_down_miss.
    2:{ replace (S (S (length path_))) with (length path_ + 2) by lia.
        rewrite skipn_app_plus. reflexivity. }
    rewrite try_down_miss.
    2:{ replace (S (length path_)) with (length path_ + 1) by lia.
        rewrite skipn_app_plus. reflexivity. }
    destruct path_ as [|c path_]; [congruence|].
    apply try_down_hit. apply exec_md_tail. exists rest. split; [|reflexivity].
    apply (skipn_app_length (c :: path_)).
Qed.

Lemma link_text_length text_ path_ :
  length (MLF.link_text text_ path_) = length text_ + length path_ + 7.
Proof.
  unfold MLF.link_text. rewrite !length_app. simpl. lia.
Qed.

Lemma link_text_app text_ path_ rest :
  MLF.link_text text_ path_ ++ rest
  = chr "[" :: text_ ++ chr "]" :: chr "(" :: path_ ++ lit ".md)" ++ rest.
Proof.
  unfold MLF.link_text. simpl. rewrite <- !app_assoc. simpl. f_equal. f_equal.
  now rewrite <- !app_assoc.
Qed.

Lemma exec_md_link bos s r :
  Re.exec MLF.md_link_regex bos 0 s [] = Some r <->
  exists text_ path_ rest,
    s = MLF.link_text text_ path_ ++ rest
    /\ text_ <> [] /\ forallb MLF.display_char text_ = true
    /\ path_ <> [] /\ forallb MLF.target_char path_ = true
    /\ r = (length text_ + length path_ + 7,
            [3 + length text_ + length path_; 3 + length text_;
             1 + length text_; 1]).
Proof.
  destruct s as [|c s].
  { split; [discriminate|]. intros (t & p & rest & H & _).
    rewrite link_text_app in H. discriminate. }
  change (Re.exec MLF.md_link_regex bos 0 (c :: s) [])
    with (if char_eqb c (chr "[")
          then Re.try_down
                 (fun k => Re.exec (Re.Mark :: Re.Lit (chr "]") :: Re.Lit (chr "(")
                                     :: Re.Mark :: Re.Plus MLF.target_char :: MLF.md_tail)
                                   bos (1 + k) (skipn k s) [1])
                 (Re.run MLF.display_char s)
          else None).
  split.
  - destruct (char_eqb c (chr "[")) eqn:Ec; [|discriminate].
    apply char_eqb_eq in Ec; subst c.
    intros H. apply try_down_some in H as [k [Hk H]].
    assert (Hlen : length (firstn k s) = k).
    { rewrite length_firstn. pose proof (run_le MLF.display_char s). lia. }
    pose proof (firstn_skipn k s) as Hs.
    change (Re.exec (Re.Lit (chr "]") :: Re.Lit (chr "(") :: Re.Mark
                     :: Re.Plus MLF.target_char :: MLF.md_tail)
              bos (1 + k) (skipn k s) [1 + k; 1] = Some r) in H.
    apply exec_lit in H as [s1 [Esk H]]. apply exec_lit in H as [s2 [-> H]].
    rewrite Esk in Hs.
    apply exec_path_group in H as (path_ & rest & -> & Hne & Hall & ->).
    exists (firstn k s), path_, rest. rewrite Hlen. repeat split; auto.
    + rewrite link_text_app. now rewrite Hs.
    + intros E. rewrite E in Hlen. simpl in Hlen. lia.
    + apply run_firstn. lia.
    + replace (S (S (1 + k)) + length path_ + 4) with (k + length path_ + 7) by lia.
      replace (S (S (1 + k)) + length path_) with (3 + k + length path_) by lia.
      reflexivity.
  - intros (text_ & path_ & rest & Hs & Hne1 & Hall1 & Hne2 & Hall2 & ->).
    rewrite link_text_app in Hs. injection Hs as -> ->.
    rewrite char_eqb_refl.
    rewrite run_app by exact Hall1.
    replace (Re.run MLF.display_char _) with 0 by reflexivity. rewrite Nat.add_0_r.
    destruct text_ as [|c text_]; [congruence|].
    apply try_down_hit. rewrite (skipn_app_length (c :: text_)).
    change (Re.exec (Re.Mark :: Re.Plus MLF.target_char :: MLF.md_tail) bos
              (S (S (1 + length (c :: text_))))
              (path_ ++ lit ".md)" ++ rest) [1 + length (c :: text_); 1]
            = Some (length (c :: text_) + length path_ + 7,
                    [3 + length (c :: text_) + length path_; 3 + length (c :: text_);
                     1 + length (c :: text_); 1])).
    apply exec_path_group. exists path_, rest. repeat split; auto.
    replace (S (S (1 + length (c :: text_))) + length path_ + 4)
      with (length (c :: text_) + length path_ + 7) by lia.
    replace (S (S (1 + length (c :: text_))) + length path_)
      with (3 + length (c :: text_) + length path_) by lia.
    reflexivity.
Qed.

Lemma captures_md_link t p rest :
  Re.captures (MLF.link_text t p ++ rest)
    [1; 1 + length t; 3 + length t; 3 + length t + length p] = [t; p].
Proof.
  rewrite link_text_app. unfold Re.captures.
  replace (1 + length t - 1) with (length t) by lia.
  replace (3 + length t + length p - (3 + length t)) with (length p) by lia.
  change (skipn 1 (chr "[" :: ?x)) with x.
  rewrite firstn_app_length. f_equal.
  change (skipn (3 + length t) (chr "[" :: ?x)) with (skipn (2 + length t) x).
  replace (2 + length t) with (length t + 2) by lia.
  rewrite skipn_app_plus. simpl skipn.
  now rewrite firstn_app_length.
Qed.

(** An attempt of the link pattern succeeds exactly on an inline link,
    and the match is its text and its two parts. *)
Lemma match_at_md_link bos s m :
  Re.match_at MLF.md_link_regex bos s = Some m <->
  exists text_ path_ rest,
    s = MLF.link_text text_ path_ ++ rest
    /\ text_ <> [] /\ forallb MLF.display_char text_ = true
    /\ path_ <> [] /\ forallb MLF.target_char path_ = true
    /\ m = Re.mkMatch (MLF.link_text text_ path_) [text_; path_].
Proof.
  unfold Re.match_at. split.
  - destruct (Re.exec _ bos 0 s []) as [[e marks]|] eqn:E; [|discriminate].
    intros [= <-].
    apply exec_md_link in E as (t & p & rest & -> & H1 & H2 & H3 & H4 & E).
    injection E as -> ->. exists t, p, rest. repeat split; auto.
    f_equal.
    + rewrite <- link_text_length. apply firstn_app_length.
    + apply captures_md_link.
  - intros (t & p & rest & -> & H1 & H2 & H3 & H4 & ->).
    assert (E : Re.exec MLF.md_link_regex bos 0 (MLF.link_text t p ++ rest) []
                = Some (length t + length p + 7,
                        [3 + length t + length p; 3 + length t; 1 + length t; 1])).
    { apply exec_md_link. exists t, p, rest. repeat split; auto. }
    rewrite E. f_equal. f_equal.
    + rewrite <- link_text_length. apply firstn_app_length.
    + apply captures_md_link.
Qed.

Lemma display_char_forall (t : text) :
  forallb MLF.display_char t = true <-> ~ In (chr "]") t.
Proof.
  induction t as [|c t IH]; simpl; [tauto|].
  rewrite andb_true_iff, IH. unfold MLF.display_char.
  rewrite negb_true_iff, char_eqb_neq. split.
  - intros [Hc Ht] [E|E]; [congruence | tauto].
  - intros H. split; [intros E; apply H; now left | intros E; apply H; now right].
Qed.

Lemma target_char_forall (t : text) :
  forallb MLF.target_char t = true <-> ~ In (chr ":") t /\ ~ In (chr ")") t.
Proof.
  induction t as [|c t IH]; simpl; [tauto|].
  rewrite andb_true_iff, IH. unfold MLF.target_char.
  rewrite negb_true_iff, orb_false_iff, !char_eqb_neq. split.
  - intros [[Hc Hp] [Ht Ht']]. split; intros [E|E]; try congruence; tauto.
  - intros [H H']. repeat split; try (intros E; subst; (apply H + apply H'); now left);
      intros E; (apply H + apply H'); now right.
Qed.

(** Every match the scan finds is a successful attempt at some place of
    the subject. *)
Lemma scan_from_matched re bos skip s m :
  In (Re.Matched m) (Re.scan_from re bos skip s) ->
  exists bos' before after,
    s = before ++ after /\ Re.match_at re bos' after = Some m.
Proof.
  revert bos skip; induction s as [|c s IH]; intros bos skip; simpl.
  - destruct skip; [|intros []].
    destruct (Re.match_at re bos []) as [m'|] eqn:E; [|intros []].
    intros [[= ->]|[]]. now exists bos, [], [].
  - assert (Hrec : forall b k, In (Re.Matched m) (Re.scan_from re b k s) ->
                     exists bos' before after,
                       c :: s = before ++ after /\ Re.match_at re bos' after = Some m).
    { intros b k H. destruct (IH _ _ H) as (bos' & before & after & -> & Hm).
      now exists bos', (c :: before), after. }
    destruct skip as [|k]; [|apply Hrec].
    destruct (Re.match_at re bos (c :: s)) as [m'|] eqn:E.
    + destruct (length (Re.group0 m')) as [|k].
      * intros [[= ->]|[H|H]]; [now exists bos, [], (c :: s) | discriminate | eauto].
      * intros [[= ->]|H]; [now exists bos, [], (c :: s) | eauto].
    + intros [H|H]; [discriminate | eauto].
Qed.

Lemma scan_from_skip re k s :
  k <= length s ->
  Re.scan_from re false k s = Re.scan_from re false 0 (skipn k s).
Proof.
  revert s; induction k as [|k IH]; intros s Hk; [reflexivity|].
  destruct s as [|c s]; simpl in *; [lia|]. apply IH. lia.
Qed.

(** At a match that is not empty the scan takes the match and goes on
    after it. *)
Lemma scan_from_at_match re bos s m :
  Re.match_at re bos s = Some m ->
  Re.group0 m <> [] ->
  Re.scan_from re bos 0 s
  = Re.Matched m :: Re.scan_from re false 0 (skipn (length (Re.group0 m)) s).
Proof.
  intros E Hne. destruct (match_at_group0 _ _ _ _ E) as [e He].
  destruct s as [|c s].
  - rewrite He, firstn_nil in Hne. congruence.
  - simpl Re.scan_from. rewrite E.
    destruct (length (Re.group0 m)) as [|k] eqn:L.
    + apply length_zero_iff_nil in L. congruence.
    + f_equal. rewrite scan_from_skip; [reflexivity|].
      rewrite He, length_firstn in L. simpl in L. lia.
Qed.

Lemma link_at_match bos s text_ path_ rest :
  Spec.link_at s text_ path_ rest <->
  Re.match_at MLF.md_link_regex bos s
  = Some (Re.mkMatch (MLF.link_text text_ path_) [text_; path_])
  /\ s = MLF.link_text text_ path_ ++ rest.
Proof.
  unfold Spec.link_at. split.
  - intros (Hs & H1 & H2 & H3 & H4 & H5). split; [|exact Hs].
    apply match_at_md_link. exists text_, path_, rest. repeat split; auto.
    + now apply display_char_forall.
    + now apply target_char_forall.
  - intros [Hm Hs].
    apply match_at_md_link in Hm as (t & p & r & _ & H1 & H2 & H3 & H4 & E).
    injection E as _ -> ->.
    apply display_char_forall in H2. apply target_char_forall in H4 as [H4 H5].
    repeat split; auto.
Qed.

Lemma link_text_not_nil text_ path_ : MLF.link_text text_ path_ <> [].
Proof. unfold MLF.link_text. simpl. discriminate. Qed.

(** The matches of a scan are the links of the text. *)
Lemma scan_links n : forall s bos,
  length s <= n ->
  Spec.links s
    (flat_map (fun ch => match ch with Re.Matched m => [m] | Re.Plain _ => [] end)
      (Re.scan_from MLF.md_link_regex bos 0 s)).
Proof.
  induction n as [|n IH]; intros s bos Hn.
  - destruct s; [|simpl in Hn; lia]. simpl Re.scan_from.
    destruct (Re.match_at MLF.md_link_regex bos []) as [m|] eqn:E; [|constructor].
    apply match_at_md_link in E as (t & p & rest & Hs & _).
    rewrite link_text_app in Hs. discriminate.
  - destruct (Re.match_at MLF.md_link_regex bos s) as [m|] eqn:E.
    + pose proof E as E'.
      apply match_at_md_link in E' as (t & p & rest & Hs & H1 & H2 & H3 & H4 & ->).
      rewrite (scan_from_at_match _ _ _ _ E) by apply link_text_not_nil.
      cbn [flat_map app Re.group0].
      apply (Spec.links_take s t p rest).
      * apply (link_at_match bos). split; [exact E | exact Hs].
      * rewrite Hs, skipn_app_length. apply IH.
        rewrite Hs, length_app, link_text_length in Hn. lia.
    + destruct s as [|c s]; [simpl; constructor|].
      simpl Re.scan_from. rewrite E. cbn [flat_map app].
      apply Spec.links_pass.
      * intros t p rest Hl. apply (link_at_match bos) in Hl as [Hm _].
        congruence.
      * apply IH. simpl in Hn. lia.
Qed.

(** The links of a text are determined, and the scan gives them. *)
Lemma links_scan s l :
  Spec.links s l ->
  forall bos,
    l = flat_map (fun ch => match ch with Re.Matched m => [m] | Re.Plain _ => [] end)
        (Re.scan_from MLF.md_link_regex bos 0 s).
Proof.
  induction 1 as [|c s l Hno _ IH|s t p rest l Hl _ IH]; intros bos.
  - simpl Re.scan_from.
    destruct (Re.match_at MLF.md_link_regex bos []) as [m|] eqn:E; [|reflexivity].
    apply match_at_md_link in E as (t & p & rest & Hs & _).
    rewrite link_text_app in Hs. discriminate.
  - simpl Re.scan_from.
    destruct (Re.match_at MLF.md_link_regex bos (c :: s)) as [m|] eqn:E.
    + exfalso. pose proof E as E'.
      apply match_at_md_link in E' as (t & p & rest & Hs & H1 & H2 & H3 & H4 & ->).
      apply (Hno t p rest). apply (link_at_match bos). now split.
    + simpl. apply IH.
  - apply (link_at_match bos) in Hl as [Hm Hs].
    rewrite (scan_from_at_match _ _ _ _ Hm) by apply link_text_not_nil.
    cbn [flat_map app Re.group0]. f_equal.
    rewrite Hs, skipn_app_length. apply IH.
Qed.

(** C8: an attempt of the link pattern at a place of the text succeeds
    exactly when an inline link [[text](path.md)] starts there, whose
    display text is not empty and has no closing bracket and whose
    target, before the extension, is not empty and has neither colon nor
    closing parenthesis; the match is that link.  The matches of a scan
    of a document are exactly the links of its text taken from left to
    right, each search starting after the link before: no link that
    starts outside the links already taken is missed, and nothing else is
    matched.  So every match is such a link of the text, and two scans of
    the same text give the same matches. *)
Theorem md_link_regex_contract :
  (forall bos s m,
     Re.match_at MLF.md_link_regex bos s = Some m <->
     exists text_ path_ rest,
       s = MLF.link_text text_ path_ ++ rest
       /\ text_ <> [] /\ ~ In (chr "]") text_
       /\ path_ <> [] /\ ~ In (chr ":") path_ /\ ~ In (chr ")") path_
       /\ m = Re.mkMatch (MLF.link_text text_ path_) [text_; path_])
  /\ (forall s, Spec.links s (Re.finditer MLF.md_link_regex s))
  /\ (forall s l, Spec.links s l -> l = Re.finditer MLF.md_link_regex s)
  /\ (forall s m,
        In m (Re.finditer MLF.md_link_regex s) ->
        exists before text_ path_ after,
          s = before ++ MLF.link_text text_ path_ ++ after
          /\ text_ <> [] /\ ~ In (chr "]") text_
          /\ path_ <> [] /\ ~ In (chr ":") path_ /\ ~ In (chr ")") path_
          /\ m = Re.mkMatch (MLF.link_text text_ path_) [text_; path_])
  /\ (forall s1 s2,
        s1 = s2 -> Re.finditer MLF.md_link_regex s1 = Re.finditer MLF.md_link_regex s2).
Proof.
  assert (Hat : forall bos s m,
     Re.match_at MLF.md_link_regex bos s = Some m <->
     exists text_ path_ rest,
       s = MLF.link_text text_ path_ ++ rest
       /\ text_ <> [] /\ ~ In (chr "]") text_
       /\ path_ <> [] /\ ~ In (chr ":") path_ /\ ~ In (chr ")") path_
       /\ m = Re.mkMatch (MLF.link_text text_ path_) [text_; path_]).
  { intros bos s m. rewrite match_at_md_link. split.
    - intros (t & p & rest & Hs & H1 & H2 & H3 & H4 & Hm).
      apply display_char_forall in H2. apply target_char_forall in H4 as [H4 H5].
      exists t, p, rest. repeat split; auto.
    - intros (t & p & rest & Hs & H1 & H2 & H3 & H4 & H5 & Hm).
      exists t, p, rest. repeat split; auto.
      + now apply display_char_forall.
      + now apply target_char_forall. }
  split; [exact Hat|]. split; [|split; [|split]].
  - intros s. apply (scan_links (length s)). lia.
  - intros s l H. apply (links_scan _ _ H).
  - intros s m H. apply finditer_matched in H.
    apply scan_from_matched in H as (bos' & before & after & -> & H).
    apply Hat in H as (t & p & rest & -> & H).
    exists before, t, p, rest. split; [reflexivity | exact H].
  - intros s1 s2 ->. reflexivity.
Qed.

(** ** What [link_replacer] does with a link *)

Lemma link_replacer_unchanged self fs m text_ path_ parent_dir lang_dir linked use_abs_link :
  Re.groups m = [text_; path_] ->
  MLF.linked_path fs parent_dir path_ = Ok linked ->
  FS.exists_ fs linked = Ok true ->
  MLF.link_replacer self fs m parent_dir lang_dir use_abs_link = ([], Ok (Re.group0 m)).
Proof.
  intros Hg Hl He. unfold MLF.link_replacer. rewrite Hg, Hl.
  unfold lift. cbv [bind]. now rewrite He.
Qed.

Lemma link_replacer_broken self fs m text_ path_ parent_dir lang_dir linked use_abs_link :
  Re.groups m = [text_; path_] ->
  MLF.linked_path fs parent_dir path_ = Ok linked ->
  FS.exists_ fs linked = Ok false ->
  FS.exists_ fs (MLF.en_linked_path linked lang_dir) = Ok false ->
  MLF.link_replacer self fs m parent_dir lang_dir use_abs_link
  = ([MLF.broken_line text_ path_ parent_dir], Ok (Re.group0 m)).
Proof.
  intros Hg Hl He He'. unfold MLF.link_replacer. rewrite Hg, Hl.
  unfold lift. cbv [bind]. rewrite He. cbv [negb]. rewrite He'. reflexivity.
Qed.

(** [linked_path] raises in two cases only: [resolve] on a target that
    holds the character NUL, and [with_suffix] on a resolved target
    without a name, the root. *)
Lemma linked_path_returns fs parent_dir path_ :
  (exists linked, MLF.linked_path fs parent_dir path_ = Ok linked) <->
  FS.has_nul (div parent_dir path_) = false
  /\ name (FS.resolve fs (div parent_dir path_)) <> [].
Proof.
  unfold MLF.linked_path, FS.resolve_call.
  destruct (FS.has_nul (div parent_dir path_)).
  - split; [intros [l H]; discriminate | intros [H _]; discriminate].
  - unfold with_suffix.
    destruct (name (FS.resolve fs (div parent_dir path_))) as [|c nm].
    + split; [intros [l H]; discriminate | intros [_ H]; congruence].
    + split; [intros _; split; [reflexivity | discriminate] | intros _; eauto].
Qed.



(** C4, as the code has it: a matched link whose target holds no
    character NUL and does not resolve to the root of the file system, and
    which both existence tests answer with [False] (the resolved target
    and the candidate path of the reference tree), is given back as it
    was matched, with one line printed, the warning; no exception is
    raised, and the scan of the document goes on after the link. *)
Theorem broken_link_stability
    self fs bos s m text_ path_ parent_dir lang_dir use_abs_link :
  Re.match_at MLF.md_link_regex bos s = Some m ->
  Re.groups m = [text_; path_] ->
  FS.has_nul (div parent_dir path_) = false ->
  name (FS.resolve fs (div parent_dir path_)) <> [] ->
  (forall linked,
     MLF.linked_path fs parent_dir path_ = Ok linked ->
     FS.exists_ fs linked = Ok false
     /\ FS.exists_ fs (MLF.en_linked_path linked lang_dir) = Ok false) ->
  MLF.link_replacer self fs m parent_dir lang_dir use_abs_link
  = ([MLF.broken_line text_ path_ parent_dir], Ok (Re.group0 m))
  /\ Re.group0 m = MLF.link_text text_ path_
  /\ MLF.resolution fs m parent_dir lang_dir = Ok MLF.Broken
  /\ Re.sub_from MLF.md_link_regex
       (fun m => MLF.link_replacer self fs m parent_dir lang_dir use_abs_link)
       bos 0 s
     = (print (MLF.broken_line text_ path_ parent_dir) ;;;
        rest <- Re.sub_from MLF.md_link_regex
                  (fun m => MLF.link_replacer self fs m parent_dir lang_dir use_abs_link)
                  false 0 (skipn (length (Re.group0 m)) s) ;;
        ret (Re.group0 m ++ rest)).
Proof.
  intros Hm Hg Hnul Hname Habsent.
  destruct (proj2 (linked_path_returns fs parent_dir path_) (conj Hnul Hname))
    as [linked Hl].
  destruct (Habsent linked Hl) as [He He'].
  assert (Hr : MLF.link_replacer self fs m parent_dir lang_dir use_abs_link
               = ([MLF.broken_line text_ path_ parent_dir], Ok (Re.group0 m)))
    by (eapply link_replacer_broken; eauto).
  assert (H0 : Re.group0 m = MLF.link_text text_ path_).
  { apply match_at_md_link in Hm as (t & p & rest & _ & _ & _ & _ & _ & ->).
    simpl in Hg. now injection Hg as -> ->. }
  repeat split; auto.
  - unfold MLF.resolution. now rewrite Hg, Hl, He, He'.
  - rewrite (sub_from_at_match _ _ _ _ _ Hm).
    + rewrite Hr. reflexivity.
    + rewrite H0. unfold MLF.link_text. simpl. discriminate.
Qed.

(** The link of the example tree that exists in neither tree. *)
Lemma broken_link_stability_witness :
  MLF.link_replacer Example.docs Example.tree Example.api_link
    Example.guides Example.fr false
  = ([MLF.broken_line (lit "API") (lit "../api/missing") Example.guides],
     Ok (Re.group0 Example.api_link))
  /\ Re.group0 Example.api_link = MLF.link_text (lit "API") (lit "../api/missing")
  /\ MLF.resolution Example.tree Example.api_link Example.guides Example.fr
     = Ok MLF.Broken
  /\ Re.sub_from MLF.md_link_regex
       (fun m => MLF.link_replacer Example.docs Example.tree m
                   Example.guides Example.fr false)
       true 0 (lit "[API](../api/missing.md) and [Setup](../install.md)")
     = (print (MLF.broken_line (lit "API") (lit "../api/missing") Example.guides) ;;;
        rest <- Re.sub_from MLF.md_link_regex
                  (fun m => MLF.link_replacer Example.docs Example.tree m
                              Example.guides Example.fr false)
                  false 0
                  (skipn (length (Re.group0 Example.api_link))
                         (lit "[API](../api/missing.md) and [Setup](../install.md)")) ;;
        ret (Re.group0 Example.api_link ++ rest)).
Proof.
  apply (broken_link_stability Example.docs Example.tree true
           (lit "[API](../api/missing.md) and [Setup](../install.md)")
           Example.api_link (lit "API") (lit "../api/missing")
           Example.guides Example.fr false).
  - reflexivity.
  - reflexivity.
  - reflexivity.
  - vm_compute. discriminate.
  - intros linked H. vm_compute in H. injection H as <-. split; reflexivity.
Defined.

(** C4, as the specification states it, fails on the link [[t](/.md)]: it
    is matched, no file [/.md] is in either tree, and [link_replacer]
    raises [ValueError], since the target resolves to the root, which has
    no name to put the extension on.  Nothing is printed, and the link
    step of a document ends there: the broken link after it, which the
    step reports when it stands alone, is never looked at.  Two more
    links to files that are in neither tree raise as well: one whose
    target holds the character NUL ([ValueError] of [resolve]), and one
    whose target is a name of 300 letters in an existing directory
    ([OSError] of [exists]). *)
Lemma broken_link_raises :
  Re.match_at MLF.md_link_regex true (lit "[t](/.md) and [API](../api/missing.md)")
  = Some Example.root_link
  /\ FS.exists_ Example.tree (Example.P "/.md") = Ok false
  /\ FS.exists_ Example.tree (MLF.en_linked_path (Example.P "/.md") Example.fr)
     = Ok false
  /\ MLF.link_replacer Example.docs Example.tree Example.root_link
       Example.guides Example.fr false
     = ([], Raise ValueError)
  /\ MLF.process_markdown_file_links Example.docs Example.tree
       (lit "[t](/.md) and [API](../api/missing.md)") Example.start_md Example.fr
     = ([], Raise ValueError)
  /\ MLF.process_markdown_file_links Example.docs Example.tree
       (lit "[API](../api/missing.md)") Example.start_md Example.fr
     = ([MLF.broken_line (lit "API") (lit "../api/missing") Example.guides],
        Ok (lit "[API](../api/missing.md)"))
  /\ MLF.process_markdown_file_links Example.docs Example.tree
       (MLF.link_text (lit "t") [chr "a"; 0%N; chr "b"]) Example.start_md Example.fr
     = ([], Raise ValueError)
  /\ length (MLF.link_text (lit "t") (repeat (chr "x") 300)) = 308
  /\ MLF.process_markdown_file_links Example.docs Example.tree
       (MLF.link_text (lit "t") (repeat (chr "x") 300)) Example.start_md Example.fr
     = ([], Raise OSError).
Proof.
  repeat split; reflexivity.
Qed.

(** C7: the link step of [process_markdown_file] cuts the text, as it was
    read, into the matches of the link pattern and the characters between
    them; put side by side the pieces are the text; the result is the
    pieces in the same order, each character between matches as it was
    and each match replaced by what [link_replacer] returns for it.  So
    nothing outside a matched span changes, and the spans are those of
    the text before any replacement. *)
Theorem non_link_text_preserved self fs content md_file_path lang_dir :
  let chunks := Re.scan MLF.md_link_regex content in
  flat_map Re.chunk_text chunks = content
  /\ MLF.process_markdown_file_links self fs content md_file_path lang_dir
     = if MLF.update_links self
       then Re.assemble
              (fun m => MLF.link_replacer self fs m (parent md_file_path) lang_dir false)
              chunks
       else ret content.
Proof.
  split.
  - apply (scan_from_text MLF.md_link_regex true 0 content).
  - unfold MLF.process_markdown_file_links.
    destruct (MLF.update_links self); [|reflexivity].
    apply sub_from_assemble.
Qed.

(** ** A second pass *)

Lemma link_replacer_settled self fs m parent_dir lang_dir use_abs_link :
  MLF.resolution fs m parent_dir lang_dir = Ok MLF.Unchanged
  \/ MLF.resolution fs m parent_dir lang_dir = Ok MLF.Broken ->
  outcome (MLF.link_replacer self fs m parent_dir lang_dir use_abs_link)
  = Ok (Re.group0 m).
Proof.
  unfold MLF.resolution.
  destruct (Re.groups m) as [|t [|p [|x l]]] eqn:Hg;
    try (intros [H|H]; discriminate).
  destruct (MLF.linked_path fs parent_dir p) as [linked|e] eqn:Hl;
    try (intros [H|H]; discriminate).
  destruct (FS.exists_ fs linked) as [[|]|e] eqn:He;
    try (intros [H|H]; discriminate).
  - intros _. erewrite link_replacer_unchanged; eauto.
  - destruct (FS.exists_ fs (MLF.en_linked_path linked lang_dir)) as [[|]|e] eqn:He';
      try (intros [H|H]; discriminate).
    intros _. erewrite link_replacer_broken; eauto.
Qed.

(** C3, as the code has it: when the first pass over a document gives a
    text none of whose links the code would rewrite (each one resolves as
    [Unchanged] or [Broken] on the same file system), the second pass
    gives that text again: rewrite(rewrite(D)) = rewrite(D). *)
Theorem rewrite_twice_when_settled self fs D D' md_file_path lang_dir :
  outcome (MLF.process_markdown_file_links self fs D md_file_path lang_dir) = Ok D' ->
  (forall m, In m (Re.finditer MLF.md_link_regex D') ->
     MLF.resolution fs m (parent md_file_path) lang_dir = Ok MLF.Unchanged
     \/ MLF.resolution fs m (parent md_file_path) lang_dir = Ok MLF.Broken) ->
  outcome (D1 <- MLF.process_markdown_file_links self fs D md_file_path lang_dir ;;
           MLF.process_markdown_file_links self fs D1 md_file_path lang_dir)
  = outcome (MLF.process_markdown_file_links self fs D md_file_path lang_dir).
Proof.
  intros Hfirst Hsettled. rewrite (outcome_bind_ok _ _ D' Hfirst), Hfirst.
  unfold MLF.process_markdown_file_links.
  destruct (MLF.update_links self); [|reflexivity].
  unfold Re.sub. rewrite sub_from_assemble, assemble_identity.
  - f_equal. apply (scan_from_text MLF.md_link_regex true 0 D').
  - intros m Hm. apply link_replacer_settled, Hsettled.
    now apply finditer_matched.
Qed.

(** ** [str.replace] *)


Lemma replace_from_skip old new a s :
  replace_from old new (length a) (a ++ s) = replace_from old new 0 s.
Proof. induction a as [|c a IH]; simpl; auto. Qed.

Lemma replace_from_hit old new r :
  old <> [] ->
  replace_from old new 0 (old ++ r) = new ++ replace_from old new 0 r.
Proof.
  destruct old as [|o old]; [congruence|]. intros _.
  change (replace_from (o :: old) new 0 ((o :: old) ++ r))
    with (if startswith ((o :: old) ++ r) (o :: old)
          then new ++ replace_from (o :: old) new (length (o :: old) - 1) (old ++ r)
          else o :: replace_from (o :: old) new 0 (old ++ r)).
  rewrite startswith_app. f_equal.
  replace (length (o :: old) - 1) with (length old) by (simpl; lia).
  apply replace_from_skip.
Qed.

Lemma replace_from_miss old new c s :
  startswith (c :: s) old = false ->
  replace_from old new 0 (c :: s) = c :: replace_from old new 0 s.
Proof. intros H. simpl replace_from. now rewrite H. Qed.

Lemma replace_from_absent old new s :
  occurs_in old s = false -> replace_from old new 0 s = s.
Proof.
  induction s as [|c s IH]; [reflexivity|].
  simpl occurs_in. intros H. apply orb_false_iff in H as [H1 H2].
  rewrite replace_from_miss by exact H1. now rewrite IH.
Qed.

(** A text without the first character of [old] is copied. *)
Lemma replace_from_copy o old new n s :
  ~ In o n ->
  replace_from (o :: old) new 0 (n ++ s) = n ++ replace_from (o :: old) new 0 s.
Proof.
  induction n as [|c n IH]; intros Hn; [reflexivity|].
  simpl app. rewrite replace_from_miss.
  - rewrite IH; [reflexivity|]. intros H. apply Hn. now right.
  - simpl. destruct (char_eqb c o) eqn:E; [|reflexivity].
    apply char_eqb_eq in E. subst. exfalso. apply Hn. now left.
Qed.

(** ** Strings of paths *)

Lemma slashed_app a b : slashed (a ++ b) = slashed a ++ slashed b.
Proof. unfold slashed. apply flat_map_app. Qed.

Lemma join_cons n l : join [sep] (n :: l) = n ++ slashed l.
Proof.
  revert n; induction l as [|x l IH]; intros n.
  - simpl. now rewrite app_nil_r.
  - change (join [sep] (n :: x :: l)) with (n ++ [sep] ++ join [sep] (x :: l)).
    rewrite IH. reflexivity.
Qed.

Lemma str_abs l : l <> [] -> str (mk true l) = slashed l.
Proof.
  destruct l as [|n l]; [congruence|]. intros _.
  unfold str. simpl root. simpl names. cbv iota. now rewrite join_cons.
Qed.

Lemma str_rel l : l <> [] -> str (mk false l) = join [sep] l.
Proof. destruct l as [|n l]; [congruence|]. reflexivity. Qed.

Lemma name_ok_inv n :
  name_ok n = true -> n <> [] /\ ~ In sep n /\ n <> dot.
Proof.
  unfold name_ok. rewrite !andb_true_iff, !negb_true_iff.
  intros [[H1 H2] H3]. apply text_eqb_neq in H1, H3. repeat split; auto.
  intros Hin. apply not_true_iff_false in H2. apply H2.
  apply existsb_exists. exists sep. split; [exact Hin | apply char_eqb_refl].
Qed.

Lemma plain_inv n : plain n = true -> name_ok n = true /\ n <> dotdot.
Proof.
  unfold plain. rewrite andb_true_iff, negb_true_iff.
  intros [H1 H2]. apply text_eqb_neq in H2. auto.
Qed.

Lemma split_nosep n : ~ In sep n -> split sep n = [n].
Proof.
  induction n as [|c n IH]; intros H; [reflexivity|].
  simpl. destruct (char_eqb c sep) eqn:E.
  - apply char_eqb_eq in E. subst. exfalso. apply H. now left.
  - rewrite IH; [reflexivity|]. intros Hin. apply H. now right.
Qed.

Lemma split_name n s :
  ~ In sep n -> split sep (n ++ sep :: s) = n :: split sep s.
Proof.
  induction n as [|c n IH]; intros H.
  - simpl. rewrite ?char_eqb_refl. reflexivity.
  - simpl. destruct (char_eqb c sep) eqn:E.
    + apply char_eqb_eq in E. subst. exfalso. apply H. now left.
    + rewrite IH; [reflexivity|]. intros Hin. apply H. now right.
Qed.

Lemma split_join n l :
  ~ In sep n -> forallb name_ok l = true ->
  split sep (n ++ slashed l) = n :: l.
Proof.
  revert n; induction l as [|x l IH]; intros n Hn Hl.
  - simpl. rewrite app_nil_r. now apply split_nosep.
  - simpl in Hl. apply andb_true_iff in Hl as [Hx Hl].
    apply name_ok_inv in Hx as (_ & Hx & _).
    change (slashed (x :: l)) with (sep :: x ++ slashed l).
    rewrite split_name by exact Hn. now rewrite IH.
Qed.

Lemma filter_keep l :
  forallb name_ok l = true ->
  filter (fun n => negb (text_eqb n []) && negb (text_eqb n dot)) l = l.
Proof.
  induction l as [|x l IH]; simpl; [reflexivity|].
  intros H. apply andb_true_iff in H as [Hx Hl].
  apply name_ok_inv in Hx as (H1 & _ & H3).
  apply text_eqb_neq in H1, H3. rewrite H1, H3. simpl.
  now rewrite IH.
Qed.

Lemma parse_slashed l :
  forallb name_ok l = true -> l <> [] -> parse (slashed l) = mk true l.
Proof.
  intros Hl Hne. destruct l as [|x l]; [congruence|].
  unfold parse. change (slashed (x :: l)) with (sep :: (x ++ slashed l)).
  replace (startswith (sep :: x ++ slashed l) [sep]) with true
    by reflexivity.
  f_equal.
  change (split sep (sep :: x ++ slashed l)) with (split sep ([] ++ sep :: (x ++ slashed l))).
  rewrite split_name by (intros []).
  simpl in Hl. apply andb_true_iff in Hl as [Hx Hl'].
  pose proof (name_ok_inv _ Hx) as (_ & Hsx & _).
  rewrite split_join by assumption.
  change (filter (fun n => negb (text_eqb n []) && negb (text_eqb n dot)) (x :: l) = x :: l).
  apply (filter_keep (x :: l)). simpl. now rewrite Hx, Hl'.
Qed.

Lemma parse_join l :
  forallb name_ok l = true -> l <> [] -> parse (join [sep] l) = mk false l.
Proof.
  intros Hl Hne. destruct l as [|x l]; [congruence|].
  rewrite join_cons. unfold parse.
  simpl in Hl. apply andb_true_iff in Hl as [Hx Hl'].
  pose proof (name_ok_inv _ Hx) as (Hnx & Hsx & _).
  replace (startswith (x ++ slashed l) [sep]) with false.
  - f_equal. rewrite split_join by assumption.
    apply (filter_keep (x :: l)). simpl. now rewrite Hx, Hl'.
  - destruct x as [|c x]; [congruence|]. simpl.
    destruct (char_eqb c sep) eqn:E; [|reflexivity].
    apply char_eqb_eq in E. subst. exfalso. apply Hsx. now left.
Qed.

(** ** Resolution of [..] *)

Lemma collapse_plain stack ns :
  forallb plain ns = true -> collapse stack ns = rev stack ++ ns.
Proof.
  revert stack; induction ns as [|n ns IH]; intros stack H; simpl.
  - now rewrite app_nil_r.
  - simpl in H. apply andb_true_iff in H as [Hn Hns].
    apply plain_inv in Hn as [_ Hn]. apply text_eqb_neq in Hn. rewrite Hn.
    rewrite IH by exact Hns. simpl. now rewrite <- app_assoc.
Qed.




(** ** [relative_to] *)

Lemma is_prefix_app a b : is_prefix a (a ++ b) = true.
Proof. induction a as [|x a IH]; simpl; [reflexivity|]. now rewrite text_eqb_refl. Qed.

Lemma relative_to_below B X :
  relative_to (mk true (B ++ X)) (mk true B) = Ok (mk false X).
Proof.
  unfold relative_to. simpl. rewrite is_prefix_app. now rewrite skipn_app_length.
Qed.

(** ** The steps up *)

Lemma times_S s n : times s (S n) = s ++ times s n.
Proof. reflexivity. Qed.

Lemma split_ups n :
  filter (fun n => negb (text_eqb n []) && negb (text_eqb n dot))
         (split sep (times (lit "../") n))
  = repeat dotdot n.
Proof.
  induction n as [|n IH]; [reflexivity|].
  rewrite times_S.
  change (lit "../" ++ times (lit "../") n) with (dotdot ++ sep :: times (lit "../") n).
  rewrite split_name.
  - simpl filter. now rewrite IH.
  - intros [H|[H|[]]]; discriminate.
Qed.

Lemma parse_ups n : parse (times (lit "../") n) = mk false (repeat dotdot n).
Proof.
  unfold parse. rewrite split_ups. f_equal.
  destruct n; reflexivity.
Qed.

(** ** The replacement of ["/en/"] *)

Lemma slashed_cons x l : slashed (x :: l) = sep :: x ++ slashed l.
Proof. reflexivity. Qed.

Lemma startswith_en_sep x l :
  ~ In sep x ->
  startswith (sep :: x ++ slashed l) (lit "/en/") = true ->
  x = MLF.en /\ l <> [].
Proof.
  intros Hx H. apply startswith_inv in H as [r H].
  change (lit "/en/" ++ r) with (sep :: chr "e" :: chr "n" :: sep :: r) in H.
  injection H as H.
  destruct x as [|a [|b [|c x]]]; simpl in H.
  - destruct l as [|y l]; [discriminate|]. rewrite slashed_cons in H.
    injection H as H _. discriminate.
  - injection H as -> H. destruct l as [|y l]; [discriminate|].
    rewrite slashed_cons in H. injection H as H _. discriminate.
  - injection H as -> -> H. split; [reflexivity|].
    destruct l; [discriminate | discriminate].
  - injection H as _ _ -> _. exfalso. apply Hx. right; right; now left.
Qed.

Lemma strip_names_step x l :
  (text_eqb x MLF.en = false \/ l = []) ->
  MLF.strip_names (x :: l) = x :: MLF.strip_names l.
Proof.
  intros H. destruct l as [|y l]; [reflexivity|].
  destruct H as [H|H]; [|discriminate]. simpl. now rewrite H.
Qed.

Lemma strip_slashed_bounded k :
  forall l n,
    length l <= k -> ~ In sep n -> forallb name_ok l = true ->
    replace_from (lit "/en/") (lit "/") 0 (n ++ slashed l)
    = n ++ slashed (MLF.strip_names l).
Proof.
  induction k as [|k IH]; intros l n Hk Hn Hl.
  - destruct l; [|simpl in Hk; lia]. simpl slashed.
    change (lit "/en/") with (sep :: lit "en/").
    rewrite replace_from_copy by exact Hn. reflexivity.
  - destruct l as [|x l]; [apply (IH [] n); simpl; auto; lia|].
    simpl in Hl. apply andb_true_iff in Hl as [Hx Hl].
    pose proof (name_ok_inv _ Hx) as (_ & Hsx & _).
    change (lit "/en/") with (sep :: lit "en/").
    rewrite replace_from_copy by exact Hn.
    change (sep :: lit "en/") with (lit "/en/"). f_equal.
    rewrite slashed_cons.
    destruct (startswith (sep :: x ++ slashed l) (lit "/en/")) eqn:E.
    + destruct (startswith_en_sep _ _ Hsx E) as [-> Hne].
      destruct l as [|y l]; [congruence|].
      simpl in Hl. apply andb_true_iff in Hl as [Hy Hl].
      pose proof (name_ok_inv _ Hy) as (_ & Hsy & _).
      change (sep :: MLF.en ++ slashed (y :: l)) with (lit "/en/" ++ (y ++ slashed l)).
      rewrite replace_from_hit by discriminate.
      rewrite (IH l y) by (simpl in Hk; auto; lia).
      reflexivity.
    + rewrite replace_from_miss by exact E.
      rewrite (IH l x) by (simpl in Hk; auto; lia).
      rewrite strip_names_step; [reflexivity|].
      destruct l as [|y l]; [now right | left].
      destruct (text_eqb x MLF.en) eqn:Ex; [|reflexivity].
      apply text_eqb_eq in Ex. subst x.
      change (sep :: MLF.en ++ slashed (y :: l)) with (lit "/en/" ++ (y ++ slashed l)) in E.
      now rewrite startswith_app in E.
Qed.

(** On the string of a path, [.replace('/en/', '/')] acts on the names
    after the first as [strip_names] does. *)
Lemma strip_join n l :
  forallb name_ok (n :: l) = true ->
  replace (join [sep] (n :: l)) (lit "/en/") (lit "/")
  = join [sep] (n :: MLF.strip_names l).
Proof.
  intros H. simpl in H. apply andb_true_iff in H as [Hn Hl].
  apply name_ok_inv in Hn as (_ & Hn & _).
  rewrite !join_cons.
  change (replace (n ++ slashed l) (lit "/en/") (lit "/"))
    with (replace_from (lit "/en/") (lit "/") 0 (n ++ slashed l)).
  now apply (strip_slashed_bounded (length l)).
Qed.

Lemma strip_names_ups k l :
  MLF.strip_names (repeat dotdot k ++ l) = repeat dotdot k ++ MLF.strip_names l.
Proof.
  induction k as [|k IH]; [reflexivity|].
  simpl app. rewrite strip_names_step.
  - now rewrite IH.
  - now left.
Qed.



(** ** The candidate and the rewritten path *)

Lemma replace_nonempty s old new :
  old <> [] -> replace s old new = replace_from old new 0 s.
Proof. destruct old; [congruence | reflexivity]. Qed.

Lemma forallb_name_ok_app a b :
  forallb name_ok (a ++ b) = true ->
  forallb name_ok a = true /\ forallb name_ok b = true.
Proof. rewrite forallb_app. apply andb_true_iff. Qed.

Lemma en_dir B L :
  div (parent (mk true (B ++ [L]))) (lit "en") = mk true (B ++ [MLF.en]).
Proof.
  unfold div, parent, join_path. simpl names. now rewrite removelast_last.
Qed.

Lemma en_linked_path_below B L rest :
  forallb name_ok (B ++ L :: rest) = true ->
  occurs_in (str (mk true (B ++ [L]))) (slashed rest) = false ->
  MLF.en_linked_path (mk true (B ++ L :: rest)) (mk true (B ++ [L]))
  = mk true (B ++ MLF.en :: rest).
Proof.
  intros Hok Hocc. unfold MLF.en_linked_path. rewrite en_dir.
  assert (HneL : B ++ [L] <> []) by (destruct B; discriminate).
  assert (Hne : B ++ L :: rest <> []) by (destruct B; discriminate).
  assert (Hnee : B ++ [MLF.en] <> []) by (destruct B; discriminate).
  rewrite (str_abs _ Hne), (str_abs _ HneL) in *. rewrite (str_abs _ Hnee).
  replace (B ++ L :: rest) with ((B ++ [L]) ++ rest) by now rewrite <- app_assoc.
  rewrite slashed_app.
  assert (Hold : slashed (B ++ [L]) <> []).
  { rewrite slashed_app. destruct B; discriminate. }
  rewrite replace_nonempty by exact Hold.
  rewrite replace_from_hit by exact Hold.
  rewrite replace_from_absent by exact Hocc.
  rewrite <- slashed_app, <- app_assoc. simpl app.
  apply parse_slashed; [|destruct B; discriminate].
  apply forallb_name_ok_app in Hok as [HB HL]. simpl in HL.
  apply andb_true_iff in HL as [_ Hrest].
  rewrite forallb_app, HB. simpl. exact Hrest.
Qed.

Lemma forallb_repeat {A} (p : A -> bool) x n :
  p x = true -> forallb p (repeat x n) = true.
Proof. intros H. induction n; simpl; [reflexivity | now rewrite H]. Qed.

Lemma updated_path_rel_below self B X D :
  MLF.base_dir self = mk true B ->
  X <> [] ->
  forallb name_ok D = true ->
  MLF.updated_path_rel self (mk true (B ++ X)) (mk true (B ++ D))
  = Ok (join [sep] (repeat dotdot (length X) ++ MLF.strip_names D)).
Proof.
  intros Hbase HX HD. unfold MLF.updated_path_rel.
  rewrite Hbase, !relative_to_below. unfold parts. simpl root. simpl names. cbv iota.
  rewrite parse_ups. unfold join_path. simpl root. simpl names. cbv iota.
  destruct X as [|x X]; [congruence|]. simpl length. simpl repeat. simpl app.
  f_equal. rewrite str_rel by discriminate.
  rewrite strip_join.
  - now rewrite strip_names_ups.
  - simpl. rewrite forallb_app, HD, andb_true_r.
    now apply forallb_repeat.
Qed.






(** ** The candidate *)

(** C6, as the code has it: for a target under the language directory,
    when the string of the language directory does not occur again in
    what follows it, the candidate is the target with the name of the
    language directory replaced by [en] and every other name as it was:
    the candidate of the specification. *)
Theorem candidate_under_lang_dir B L rest :
  forallb name_ok (B ++ L :: rest) = true ->
  occurs_in (str (mk true (B ++ [L]))) (slashed rest) = false ->
  MLF.en_linked_path (mk true (B ++ L :: rest)) (mk true (B ++ [L]))
  = mk true (B ++ MLF.en :: rest)
  /\ Spec.candidate (mk true (B ++ L :: rest)) (mk true (B ++ [L]))
     = mk true (B ++ MLF.en :: rest).
Proof.
  intros Hok Hocc. split; [now apply en_linked_path_below|].
  assert (E : B ++ L :: rest = (B ++ [L]) ++ rest) by now rewrite <- app_assoc.
  unfold Spec.candidate. simpl root. simpl names. rewrite E.
  rewrite is_prefix_app, skipn_app_length, removelast_last. reflexivity.
Qed.

Lemma candidate_under_lang_dir_witness :
  MLF.en_linked_path (Example.P "/docs/fr/install.md") Example.fr
  = Example.P "/docs/en/install.md"
  /\ Spec.candidate (Example.P "/docs/fr/install.md") Example.fr
     = Example.P "/docs/en/install.md".
Proof.
  exact (candidate_under_lang_dir [lit "docs"] (lit "fr") [lit "install.md"]
           eq_refl eq_refl).
Defined.

(** C6, as the specification states it, fails when the string of the
    language directory occurs again in the target: the link
    [docs/fr/y.md] of a document of [/docs/fr] resolves to
    [/docs/fr/docs/fr/y.md], and the candidate of the code has both
    occurrences replaced. *)
Lemma candidate_replaces_every_occurrence :
  MLF.linked_path Example.tree Example.fr (lit "docs/fr/y")
  = Ok (Example.P "/docs/fr/docs/fr/y.md")
  /\ MLF.en_linked_path (Example.P "/docs/fr/docs/fr/y.md") Example.fr
     = Example.P "/docs/en/docs/en/y.md"
  /\ Spec.candidate (Example.P "/docs/fr/docs/fr/y.md") Example.fr
     = Example.P "/docs/en/docs/fr/y.md"
  /\ MLF.en_linked_path (Example.P "/docs/fr/docs/fr/y.md") Example.fr
     <> Spec.candidate (Example.P "/docs/fr/docs/fr/y.md") Example.fr.
Proof.
  repeat split; try reflexivity. vm_compute. discriminate.
Qed.

(** ** The stripping *)

(** C2, as the code has it: the rewritten path is the string of the
    steps up and the candidate's path below the tree root, in which
    [str.replace] replaces every occurrence of ["/en/"] it meets from left
    to right by ["/"]: on the names after the first, each [en] that has a
    name after it is removed together with its separator, that next name
    stays (even if it is [en]), and the scan goes on after it. *)
Theorem strip_removes_each_separate_en self B X D :
  MLF.base_dir self = mk true B ->
  X <> [] ->
  forallb name_ok D = true ->
  MLF.updated_path_rel self (mk true (B ++ X)) (mk true (B ++ D))
  = Ok (replace (join [sep] (repeat dotdot (length X) ++ D)) (lit "/en/") (lit "/"))
  /\ replace (join [sep] (repeat dotdot (length X) ++ D)) (lit "/en/") (lit "/")
     = join [sep] (repeat dotdot (length X) ++ MLF.strip_names D)
  /\ (forall x l, MLF.strip_names (MLF.en :: x :: l) = x :: MLF.strip_names l)
  /\ (forall x l, x <> MLF.en ->
        MLF.strip_names (x :: l) = x :: MLF.strip_names l)
  /\ (forall x, MLF.strip_names [x] = [x]).
Proof.
  intros Hbase HX HD.
  assert (E : replace (join [sep] (repeat dotdot (length X) ++ D)) (lit "/en/") (lit "/")
              = join [sep] (repeat dotdot (length X) ++ MLF.strip_names D)).
  { destruct X as [|x X]; [congruence|]. simpl length. simpl repeat. simpl app.
    rewrite strip_join.
    - now rewrite strip_names_ups.
    - simpl. rewrite forallb_app, HD, andb_true_r. now apply forallb_repeat. }
  split; [|split; [exact E|]].
  - rewrite E. now apply updated_path_rel_below.
  - repeat split.
    + intros x l Hx. apply strip_names_step. left. now apply text_eqb_neq.
Qed.

(** A reference file two of whose directories are named [en], with
    another name between them. *)
Lemma strip_removes_each_separate_en_witness :
  MLF.updated_path_rel Example.docs Example.fr (Example.P "/docs/en/a/en/x.md")
  = Ok (replace (lit "../en/a/en/x.md") (lit "/en/") (lit "/"))
  /\ replace (lit "../en/a/en/x.md") (lit "/en/") (lit "/") = lit "../a/x.md"
  /\ (forall x l, MLF.strip_names (MLF.en :: x :: l) = x :: MLF.strip_names l)
  /\ (forall x l, x <> MLF.en ->
        MLF.strip_names (x :: l) = x :: MLF.strip_names l)
  /\ (forall x, MLF.strip_names [x] = [x]).
Proof.
  exact (strip_removes_each_separate_en Example.docs [lit "docs"] [lit "fr"]
           [lit "en"; lit "a"; lit "en"; lit "x.md"]
           eq_refl (fun H => nil_cons (eq_sym H)) eq_refl).
Defined.

(** C2, as the specification states it, fails on that file: the link
    [a/en/x.md] of [/docs/fr/a.md] is rewritten to [../a/x.md], with both
    [en] names gone, where removing the first occurrence only would leave
    [../a/en/x.md]. *)
Lemma strip_is_not_single_shot :
  MLF.linked_path Example.nested_tree Example.fr (lit "a/en/x")
  = Ok (Example.P "/docs/fr/a/en/x.md")
  /\ MLF.en_linked_path (Example.P "/docs/fr/a/en/x.md") Example.fr
     = Example.P "/docs/en/a/en/x.md"
  /\ str (join_path (parse (times (lit "../") 1))
                    (mk false [lit "en"; lit "a"; lit "en"; lit "x.md"]))
     = lit "../en/a/en/x.md"
  /\ Spec.strip_reference_once (lit "../en/a/en/x.md") = lit "../a/en/x.md"
  /\ MLF.updated_path_rel Example.docs Example.fr (Example.P "/docs/en/a/en/x.md")
     = Ok (lit "../a/x.md")
  /\ outcome (MLF.link_replacer Example.docs Example.nested_tree Example.a_en_x_link
                Example.fr Example.fr false)
     = Ok (lit "[t](../a/x.md)")
  /\ lit "../a/x.md" <> Spec.strip_reference_once (lit "../en/a/en/x.md").
Proof.
  repeat split; try reflexivity. vm_compute. discriminate.
Qed.

(** ** Two passes *)

(** On the example tree the second pass changes nothing; the link
    rewritten by the first pass is then one of the links that resolve as
    [Broken]. *)
Lemma rewrite_twice_when_settled_witness :
  outcome (D1 <- MLF.process_markdown_file_links Example.docs Example.tree
                   Example.start_text Example.start_md Example.fr ;;
           MLF.process_markdown_file_links Example.docs Example.tree
             D1 Example.start_md Example.fr)
  = outcome (MLF.process_markdown_file_links Example.docs Example.tree
               Example.start_text Example.start_md Example.fr).
Proof.
  apply (rewrite_twice_when_settled Example.docs Example.tree
           Example.start_text Example.start_text_fixed Example.start_md Example.fr).
  - reflexivity.
  - intros m Hm. vm_compute in Hm.
    destruct Hm as [<-|[<-|[<-|[]]]]; vm_compute; auto.
Defined.

(** C3, as the specification states it, fails: in a tree whose reference
    subtree has a directory [fr], the link [fr/x.md] of [/docs/fr/a.md]
    is rewritten to [../fr/x.md] by the first pass and to [../x.md] by
    the second, the file system being the same; and on the example tree
    the link rewritten by the first pass resolves as [Broken], not as
    [Unchanged], on the second. *)
Lemma second_pass_rewrites_again :
  outcome (MLF.process_markdown_file_links Example.docs Example.nested_tree
             (lit "[t](fr/x.md)") Example.a_md Example.fr)
  = Ok (lit "[t](../fr/x.md)")
  /\ outcome (MLF.process_markdown_file_links Example.docs Example.nested_tree
                (lit "[t](../fr/x.md)") Example.a_md Example.fr)
     = Ok (lit "[t](../x.md)")
  /\ outcome (D1 <- MLF.process_markdown_file_links Example.docs Example.nested_tree
                      (lit "[t](fr/x.md)") Example.a_md Example.fr ;;
              MLF.process_markdown_file_links Example.docs Example.nested_tree
                D1 Example.a_md Example.fr)
     <> outcome (MLF.process_markdown_file_links Example.docs Example.nested_tree
                   (lit "[t](fr/x.md)") Example.a_md Example.fr)
  /\ outcome (MLF.process_markdown_file_links Example.docs Example.tree
                Example.start_text Example.start_md Example.fr)
     = Ok Example.start_text_fixed
  /\ In Example.setup_link_fixed
        (Re.finditer MLF.md_link_regex Example.start_text_fixed)
  /\ MLF.resolution Example.tree Example.setup_link_fixed Example.guides Example.fr
     = Ok MLF.Broken.
Proof.
  repeat split; try reflexivity.
  - vm_compute. discriminate.
  - vm_compute. now left.
Qed.

(** ** The directories [run] takes *)

Section RunFilter.

Variable isalnum : char -> bool.

(** The pattern [^\w\w$] matches two word characters, alone or followed
    by one line feed. *)
Lemma lang_dir_regex_matches (s : text) :
  (exists m, Re.match_ (MLF.lang_dir_regex isalnum) s = Some m) <->
  exists a b,
    MLF.word_char isalnum a = true /\ MLF.word_char isalnum b = true
    /\ (s = [a; b] \/ s = [a; b; newline]).
Proof.
  unfold Re.match_, Re.match_at, MLF.lang_dir_regex. split.
  - intros [m H]. destruct s as [|a [|b s]]; simpl in H; try discriminate.
    { destruct (MLF.word_char isalnum a); discriminate. }
    destruct (MLF.word_char isalnum a) eqn:Ha; [|discriminate].
    destruct (MLF.word_char isalnum b) eqn:Hb; [|discriminate].
    exists a, b. repeat split; auto.
    destruct s as [|c [|d s]]; [now left | | discriminate].
    destruct (char_eqb c newline) eqn:Hc; [|discriminate].
    apply char_eqb_eq in Hc. subst. now right.
  - intros (a & b & Ha & Hb & [->| ->]); simpl; rewrite Ha, Hb.
    + eexists; reflexivity.
    + rewrite ?char_eqb_refl. eexists; reflexivity.
Qed.

Lemma is_lang_dir_iff fs subdir :
  MLF.is_lang_dir isalnum fs subdir = true <->
  FS.is_dir fs subdir = true
  /\ (exists a b,
        MLF.word_char isalnum a = true /\ MLF.word_char isalnum b = true
        /\ (name subdir = [a; b] \/ name subdir = [a; b; newline]))
  /\ name subdir <> lit "en".
Proof.
  unfold MLF.is_lang_dir. rewrite !andb_true_iff, negb_true_iff, text_eqb_neq.
  rewrite <- lang_dir_regex_matches.
  destruct (Re.match_ (MLF.lang_dir_regex isalnum) (name subdir)) as [m|].
  - split; [intros [[H1 _] H3]; repeat split; eauto | intros (H1 & _ & H3); auto].
  - split; [intros [[_ H] _]; discriminate | intros (_ & [m H] & _); discriminate].
Qed.

Variable St : Type.
Variable process_language_directory : path -> St -> St.

(** [run] hands to [process_language_directory], in the order of the
    listing, the entries that pass the test. *)
Lemma run_filter self fs st :
  MLF.run isalnum St process_language_directory self fs st
  = fold_left (fun st subdir => process_language_directory subdir st)
      (filter (MLF.is_lang_dir isalnum fs) (FS.iterdir fs (MLF.base_dir self))) st.
Proof.
  unfold MLF.run. generalize (FS.iterdir fs (MLF.base_dir self)) as l.
  intros l; revert st; induction l as [|d l IH]; intros st; simpl; [reflexivity|].
  destruct (MLF.is_lang_dir isalnum fs d); simpl; apply IH.
Qed.

End RunFilter.

(** C9 on a base directory with the entries [index.md] and [zz] (files)
    and [en], [fr], a directory named [ab] followed by a line feed, [x],
    [assets] and [a-] (directories): [run] processes [fr] and the
    directory whose name has three characters. *)
Theorem run_takes_name_with_line_feed (isalnum : char -> bool) :
  MLF.run isalnum (list path) (fun subdir st => st ++ [subdir])
    Example.docs Example.listing []
  = [Example.P "/docs/fr"; Example.ab_newline]
  /\ FS.is_dir Example.listing Example.ab_newline = true
  /\ name Example.ab_newline = [chr "a"; chr "b"; newline]
  /\ length (name Example.ab_newline) = 3
  /\ MLF.is_lang_dir isalnum Example.listing Example.ab_newline = true.
Proof.
  repeat split; reflexivity.
Qed.

(* ================================================================== *)
(** * Further properties of the code *)

Module TP := TextPasses.

(** ** [Colors.hex2rgb] and [Colors.__call__] *)

Lemma hex_digit_range c v : Colors.hex_digit c = Some v -> (0 <= v <= 15)%Z.
Proof.
  unfold Colors.hex_digit.
  destruct ((48 <=? c) && (c <=? 57))%N eqn:E1.
  { apply andb_true_iff in E1 as [H1 H2]. apply N.leb_le in H1, H2.
    intros [= <-]. lia. }
  destruct ((65 <=? c) && (c <=? 70))%N eqn:E2.
  { apply andb_true_iff in E2 as [H1 H2]. apply N.leb_le in H1, H2.
    intros [= <-]. lia. }
  destruct ((97 <=? c) && (c <=? 102))%N eqn:E3; [|discriminate].
  apply andb_true_iff in E3 as [H1 H2]. apply N.leb_le in H1, H2.
  intros [= <-]. lia.
Qed.

Lemma int16_two a b va vb :
  Colors.hex_digit a = Some va -> Colors.hex_digit b = Some vb ->
  Colors.int16 [a; b] = Ok (16 * va + vb)%Z.
Proof.
  intros Ha Hb. unfold Colors.int16. simpl. rewrite Ha, Hb.
  first [reflexivity | f_equal; lia].
Qed.

(** X1: A colour code of one character (the [#]) and six hexadecimal digits
    gives the three channels, each the value of its two digits and so
    between 0 and 255; what follows the six digits is not read. *)
Theorem hex2rgb_channels c h1 h2 h3 h4 h5 h6 v1 v2 v3 v4 v5 v6 rest :
  Colors.hex_digit h1 = Some v1 -> Colors.hex_digit h2 = Some v2 ->
  Colors.hex_digit h3 = Some v3 -> Colors.hex_digit h4 = Some v4 ->
  Colors.hex_digit h5 = Some v5 -> Colors.hex_digit h6 = Some v6 ->
  Colors.hex2rgb (c :: h1 :: h2 :: h3 :: h4 :: h5 :: h6 :: rest)
  = Ok (16 * v1 + v2, 16 * v3 + v4, 16 * v5 + v6)%Z
  /\ (0 <= 16 * v1 + v2 <= 255)%Z
  /\ (0 <= 16 * v3 + v4 <= 255)%Z
  /\ (0 <= 16 * v5 + v6 <= 255)%Z.
Proof.
  intros H1 H2 H3 H4 H5 H6.
  pose proof (hex_digit_range _ _ H1). pose proof (hex_digit_range _ _ H2).
  pose proof (hex_digit_range _ _ H3). pose proof (hex_digit_range _ _ H4).
  pose proof (hex_digit_range _ _ H5). pose proof (hex_digit_range _ _ H6).
  split; [|lia].
  unfold Colors.hex2rgb, Colors.slice. simpl firstn.
  rewrite (int16_two _ _ _ _ H1 H2), (int16_two _ _ _ _ H3 H4),
    (int16_two _ _ _ _ H5 H6).
  reflexivity.
Qed.

Lemma hex2rgb_channels_witness :
  Colors.hex2rgb (lit "#FF3838") = Ok (16 * 15 + 15, 16 * 3 + 8, 16 * 3 + 8)%Z
  /\ (0 <= 16 * 15 + 15 <= 255)%Z
  /\ (0 <= 16 * 3 + 8 <= 255)%Z
  /\ (0 <= 16 * 3 + 8 <= 255)%Z.
Proof.
  exact (hex2rgb_channels (chr "#") (chr "F") (chr "F") (chr "3") (chr "8")
           (chr "3") (chr "8") 15 15 3 8 3 8 []
           eq_refl eq_refl eq_refl eq_refl eq_refl eq_refl).
Defined.

Lemma int16_from_raises acc s e :
  Colors.int16_from acc s = Raise e -> e = ValueError.
Proof.
  revert acc; induction s as [|c s IH]; intros acc; simpl; [discriminate|].
  destruct (Colors.hex_digit c); [apply IH | now intros [= <-]].
Qed.

Lemma int16_raises s e : Colors.int16 s = Raise e -> e = ValueError.
Proof.
  destruct s as [|c s]; [now intros [= <-]|].
  apply (int16_from_raises 0%Z (c :: s)).
Qed.

(** X2: A colour code of fewer than six characters raises [ValueError]: the
    slice for the last channel is empty. *)
Theorem hex2rgb_short h :
  length h <= 5 -> Colors.hex2rgb h = Raise ValueError.
Proof.
  intros Hlen. unfold Colors.hex2rgb.
  destruct (Colors.int16 (Colors.slice h (1 + 0) (1 + 0 + 2))) as [r|e] eqn:E1;
    [|now rewrite (int16_raises _ _ E1)].
  destruct (Colors.int16 (Colors.slice h (1 + 2) (1 + 2 + 2))) as [g|e] eqn:E2;
    [|now rewrite (int16_raises _ _ E2)].
  replace (Colors.slice h (1 + 4) (1 + 4 + 2)) with (@nil char); [reflexivity|].
  unfold Colors.slice. rewrite skipn_all2 by (simpl; lia). reflexivity.
Qed.

Lemma hex2rgb_short_witness : Colors.hex2rgb (lit "#FFF") = Raise ValueError.
Proof. apply hex2rgb_short. simpl. lia. Defined.

(** X3: the colour of an index is the colour of the index plus any multiple
    of the palette length: the palette is cycled through, also for
    negative indices. *)
Theorem call_periodic self i k bgr :
  Colors.n self <> 0%Z ->
  Colors.call self (i + k * Colors.n self) bgr = Colors.call self i bgr.
Proof.
  intros Hn. unfold Colors.call. now rewrite Z.mod_add.
Qed.

Lemma call_periodic_witness :
  Colors.call (Colors.mk [(1, 2, 3); (4, 5, 6)]%Z 2) (1 + (-3) * 2) true
  = Colors.call (Colors.mk [(1, 2, 3); (4, 5, 6)]%Z 2) 1 true.
Proof. apply (call_periodic (Colors.mk [(1, 2, 3); (4, 5, 6)]%Z 2)). discriminate. Defined.

(** ** The target of a link *)

Lemma rpartition_dot_none n :
  ~ In (chr ".") n -> rpartition_dot n = None.
Proof.
  induction n as [|c n IH]; intros H; [reflexivity|].
  simpl. rewrite IH by (intros Hin; apply H; now right).
  destruct (char_eqb c (chr ".")) eqn:E; [|reflexivity].
  apply char_eqb_eq in E. subst. exfalso. apply H. now left.
Qed.

Lemma rpartition_dot_last stem ext :
  ~ In (chr ".") ext ->
  rpartition_dot (stem ++ chr "." :: ext) = Some (stem, ext).
Proof.
  intros H. induction stem as [|c stem IH].
  - simpl. rewrite (rpartition_dot_none _ H). rewrite ?char_eqb_refl. reflexivity.
  - simpl. now rewrite IH.
Qed.

Lemma last_app_single {A} (l : list A) x d : last (l ++ [x]) d = x.
Proof. apply last_last. Qed.

Lemma with_suffix_plain_name r ds n sfx :
  n <> [] -> ~ In (chr ".") n ->
  with_suffix (mk r (ds ++ [n])) sfx = Ok (mk r (ds ++ [n ++ sfx])).
Proof.
  intros Hne Hdot. unfold with_suffix, suffix, name. simpl names.
  rewrite last_app_single, removelast_last, (rpartition_dot_none _ Hdot).
  simpl root. destruct n; [congruence | reflexivity].
Qed.

Lemma with_suffix_dotted_name r ds stem ext sfx :
  stem <> [] -> ext <> [] -> ~ In (chr ".") ext ->
  with_suffix (mk r (ds ++ [stem ++ chr "." :: ext])) sfx
  = Ok (mk r (ds ++ [stem ++ sfx])).
Proof.
  intros Hs He Hdot. unfold with_suffix, suffix, name. simpl names.
  rewrite last_app_single, removelast_last, (rpartition_dot_last _ _ Hdot).
  simpl root.
  destruct stem as [|c stem]; [congruence|]. destruct ext as [|d ext]; [congruence|].
  cbv iota. cbv beta.
  set (nm := (c :: stem) ++ chr "." :: d :: ext).
  assert (E : firstn (length nm - length (chr "." :: d :: ext)) nm = c :: stem).
  { unfold nm.
    replace (length ((c :: stem) ++ chr "." :: d :: ext) - length (chr "." :: d :: ext))
      with (length (c :: stem)) by (rewrite length_app; simpl; lia).
    apply firstn_app_length. }
  assert (Hnm : nm = c :: (stem ++ chr "." :: d :: ext)) by reflexivity.
  destruct nm as [|c0 l]; [discriminate|]. now rewrite E.
Qed.

Lemma with_suffix_edge_dot r ds stem ext sfx :
  stem = [] \/ ext = [] -> ~ In (chr ".") ext ->
  with_suffix (mk r (ds ++ [stem ++ chr "." :: ext])) sfx
  = Ok (mk r (ds ++ [(stem ++ chr "." :: ext) ++ sfx])).
Proof.
  intros Hedge Hdot. unfold with_suffix, suffix, name. simpl names.
  rewrite last_app_single, removelast_last, (rpartition_dot_last _ _ Hdot).
  simpl root.
  destruct Hedge as [-> | ->].
  - reflexivity.
  - destruct stem as [|c stem]; reflexivity.
Qed.

(** X4: the name under which [linked_path] looks a link up.  The markdown
    extension is put after the last name of the target when that name has
    no dot, or when its last dot is its first or its last character;
    otherwise the extension takes the place of what the name has from its
    last dot on: the link [a.b.md], matched with the target [a.b], is
    looked up as [a.md]. *)
Theorem linked_path_last_name fs P ds n :
  forallb plain (P ++ ds) = true ->
  plain n = true ->
  FS.has_nul (div (mk true P) (join [sep] (ds ++ [n]))) = false ->
  let looked_up nm :=
    MLF.linked_path fs (mk true P) (join [sep] (ds ++ [n]))
    = Ok (mk true (P ++ ds ++ [nm])) in
  (~ In (chr ".") n -> looked_up (n ++ lit ".md"))
  /\ (forall stem ext,
        n = stem ++ chr "." :: ext -> ~ In (chr ".") ext ->
        (stem <> [] -> ext <> [] -> looked_up (stem ++ lit ".md"))
        /\ (stem = [] \/ ext = [] -> looked_up (n ++ lit ".md"))).
Proof.
  intros Hplain Hn Hnul. cbv zeta.
  assert (HP : forallb plain P = true /\ forallb plain ds = true).
  { rewrite forallb_app in Hplain. now apply andb_true_iff in Hplain. }
  destruct HP as [HP Hds].
  assert (Hok : forall l, forallb plain l = true -> forallb name_ok l = true).
  { intros l H. rewrite forallb_forall in *. intros x Hx.
    now destruct (plain_inv _ (H x Hx)). }
  assert (Hres : FS.resolve fs (div (mk true P) (join [sep] (ds ++ [n])))
                 = mk true ((P ++ ds) ++ [n])).
  { unfold div. rewrite parse_join.
    - unfold join_path, FS.resolve. simpl root. simpl names. cbv iota.
      f_equal. simpl app. rewrite collapse_plain.
      + simpl. now rewrite app_assoc.
      + rewrite !forallb_app, HP, Hds. simpl. now rewrite Hn.
    - apply Hok. rewrite forallb_app, Hds. simpl. now rewrite Hn.
    - destruct ds; discriminate. }
  assert (Hne : n <> []).
  { apply plain_inv in Hn as [Hn _]. now apply name_ok_inv in Hn as [Hn _]. }
  unfold MLF.linked_path, FS.resolve_call. rewrite Hnul, Hres.
  split.
  - intros Hdot. rewrite with_suffix_plain_name by assumption.
    now rewrite <- app_assoc.
  - intros stem ext -> Hdot. split.
    + intros Hs He. rewrite with_suffix_dotted_name by assumption.
      now rewrite <- app_assoc.
    + intros Hedge. rewrite with_suffix_edge_dot by assumption.
      now rewrite <- app_assoc.
Qed.

Lemma not_in_text (c : char) (t : text) : existsb (char_eqb c) t = false -> ~ In c t.
Proof.
  intros H Hin. apply not_true_iff_false in H. apply H.
  apply existsb_exists. exists c. split; [exact Hin | apply char_eqb_refl].
Qed.

(** Three links of a document of [/docs/fr]: [guides/start.md] is looked
    up as it is, [guides/v8.1.md] as [guides/v8.md], and the target
    [guides/.notes], whose one dot comes first, as [guides/.notes.md]. *)
Lemma linked_path_last_name_witness :
  MLF.linked_path Example.tree Example.fr (lit "guides/start")
  = Ok (Example.P "/docs/fr/guides/start.md")
  /\ MLF.linked_path Example.tree Example.fr (lit "guides/v8.1")
     = Ok (Example.P "/docs/fr/guides/v8.md")
  /\ MLF.linked_path Example.tree Example.fr (lit "guides/.notes")
     = Ok (Example.P "/docs/fr/guides/.notes.md").
Proof.
  split; [|split].
  - apply (linked_path_last_name Example.tree [lit "docs"; lit "fr"] [lit "guides"]
             (lit "start") eq_refl eq_refl eq_refl).
    apply not_in_text. reflexivity.
  - apply (proj2 (linked_path_last_name Example.tree [lit "docs"; lit "fr"]
                    [lit "guides"] (lit "v8.1") eq_refl eq_refl eq_refl)
             (lit "v8") (lit "1") eq_refl).
    + apply not_in_text. reflexivity.
    + discriminate.
    + discriminate.
  - apply (proj2 (linked_path_last_name Example.tree [lit "docs"; lit "fr"]
                    [lit "guides"] (lit ".notes") eq_refl eq_refl eq_refl)
             [] (lit "notes") eq_refl).
    + apply not_in_text. reflexivity.
    + now left.
Defined.

(** ** The branch of absolute links *)



(** ** Documents without links, and links to the root *)

Lemma match_at_md_link_head bos c s m :
  Re.match_at MLF.md_link_regex bos (c :: s) = Some m -> c = chr "[".
Proof.
  intros H. apply match_at_md_link in H as (t & p & rest & Hs & _).
  rewrite link_text_app in Hs. now injection Hs.
Qed.

(** The scan copies what stands before the first opening bracket. *)
Lemma sub_from_before_bracket repl pre s bos :
  ~ In (chr "[") pre ->
  exists bos',
    Re.sub_from MLF.md_link_regex repl bos 0 (pre ++ s)
    = (rest <- Re.sub_from MLF.md_link_regex repl bos' 0 s ;; ret (pre ++ rest)).
Proof.
  revert bos; induction pre as [|c pre IH]; intros bos Hpre.
  - exists bos. simpl app. rewrite <- (bind_ret_r (Re.sub_from _ _ _ _ _)) at 1.
    reflexivity.
  - destruct (IH false) as [bos' E]; [intros H; apply Hpre; now right|].
    exists bos'. simpl app. simpl Re.sub_from.
    destruct (Re.match_at MLF.md_link_regex bos (c :: pre ++ s)) as [m|] eqn:Em.
    + apply match_at_md_link_head in Em. subst. exfalso. apply Hpre. now left.
    + rewrite E, bind_assoc. apply bind_ext. intros r. now rewrite bind_ret_l.
Qed.

(** X6: A text without an opening bracket holds no link: the link step gives
    it back and prints nothing. *)
Theorem no_bracket_no_change self fs content md_file_path lang_dir :
  ~ In (chr "[") content ->
  MLF.process_markdown_file_links self fs content md_file_path lang_dir
  = ([], Ok content).
Proof.
  intros H. unfold MLF.process_markdown_file_links.
  destruct (MLF.update_links self); [|reflexivity].
  unfold Re.sub.
  destruct (sub_from_before_bracket
              (fun m => MLF.link_replacer self fs m (parent md_file_path) lang_dir false)
              content [] true H) as [bos' E].
  rewrite app_nil_r in E. rewrite E.
  assert (E0 : Re.sub_from MLF.md_link_regex
                 (fun m => MLF.link_replacer self fs m (parent md_file_path) lang_dir false)
                 bos' 0 [] = ret []).
  { simpl. destruct (Re.match_at MLF.md_link_regex bos' []) as [m|] eqn:Em; [|reflexivity].
    apply match_at_md_link in Em as (t & p & rest & Hs & _).
    rewrite link_text_app in Hs. discriminate. }
  rewrite E0, bind_ret_l. now rewrite app_nil_r.
Qed.

Lemma no_bracket_no_change_witness :
  MLF.process_markdown_file_links Example.docs Example.tree
    (lit "No link here: (a.md) b.md") Example.start_md Example.fr
  = ([], Ok (lit "No link here: (a.md) b.md")).
Proof.
  apply no_bracket_no_change. apply not_in_text. reflexivity.
Defined.

(** X7: A link whose target is the root, [[t](/.md)], has no name to put the
    extension on: [with_suffix] raises [ValueError].  When it is the first
    thing in the document that opens with a bracket, the link step ends
    with that exception and returns no text; nothing has been printed. *)
Theorem link_to_root_aborts self fs pre text_ post md_file_path lang_dir :
  MLF.update_links self = true ->
  ~ In (chr "[") pre ->
  text_ <> [] -> ~ In (chr "]") text_ ->
  MLF.process_markdown_file_links self fs
    (pre ++ MLF.link_text text_ (lit "/") ++ post) md_file_path lang_dir
  = ([], Raise ValueError).
Proof.
  intros Hul Hpre Hne Hbr. unfold MLF.process_markdown_file_links. rewrite Hul.
  unfold Re.sub.
  set (repl := fun m => MLF.link_replacer self fs m (parent md_file_path) lang_dir false).
  destruct (sub_from_before_bracket repl pre
              (MLF.link_text text_ (lit "/") ++ post) true Hpre) as [bos' E].
  rewrite E.
  assert (Hm : Re.match_at MLF.md_link_regex bos' (MLF.link_text text_ (lit "/") ++ post)
               = Some (Re.mkMatch (MLF.link_text text_ (lit "/")) [text_; lit "/"])).
  { apply match_at_md_link. exists text_, (lit "/"), post. repeat split; auto.
    - now apply display_char_forall.
    - discriminate. }
  rewrite (sub_from_at_match _ _ _ _ _ Hm).
  - assert (Hr : repl (Re.mkMatch (MLF.link_text text_ (lit "/")) [text_; lit "/"])
                 = ([], Raise ValueError)).
    { unfold repl, MLF.link_replacer. simpl Re.groups. cbv iota.
      unfold MLF.linked_path, div, join_path. reflexivity. }
    rewrite Hr. reflexivity.
  - simpl. unfold MLF.link_text. simpl. discriminate.
Qed.

Lemma link_to_root_aborts_witness :
  MLF.process_markdown_file_links Example.docs Example.tree
    (lit "See " ++ MLF.link_text (lit "top") (lit "/") ++ lit " and [Setup](../install.md)")
    Example.start_md Example.fr
  = ([], Raise ValueError).
Proof.
  apply (link_to_root_aborts Example.docs Example.tree (lit "See ") (lit "top")).
  - reflexivity.
  - apply not_in_text. reflexivity.
  - discriminate.
  - apply not_in_text. reflexivity.
Defined.

(** ** The entries [run] takes *)

(** X8: [run] calls [process_language_directory], in the order of the
    listing, on the entries of the base directory that are directories,
    whose name is two word characters, alone or followed by one line
    feed, and is not [en]; the other entries are passed over. *)
Theorem run_processes_exactly
    (isalnum : char -> bool) (St : Type) (process : path -> St -> St) self fs st :
  MLF.run isalnum St process self fs st
  = fold_left (fun st subdir => process subdir st)
      (filter (MLF.is_lang_dir isalnum fs) (FS.iterdir fs (MLF.base_dir self))) st
  /\ forall subdir,
       MLF.is_lang_dir isalnum fs subdir = true <->
       FS.is_dir fs subdir = true
       /\ (exists a b,
             MLF.word_char isalnum a = true /\ MLF.word_char isalnum b = true
             /\ (name subdir = [a; b] \/ name subdir = [a; b; newline]))
       /\ name subdir <> lit "en".
Proof.
  split; [apply run_filter | intros subdir; apply is_lang_dir_iff].
Qed.

(** ** The scan of the text passes *)

Section RxScan.

Variable re : Rx.pattern.
Variable repl : text.

Lemma rx_sub_from_skip k s :
  k <= length s ->
  Rx.sub_from re repl k s = Rx.sub_from re repl 0 (skipn k s).
Proof.
  revert s; induction k as [|k IH]; intros s Hk; [reflexivity|].
  destruct s as [|c s]; simpl in *; [lia|]. apply IH. lia.
Qed.

Lemma rx_sub_miss c s :
  Rx.match_len re (c :: s) = None ->
  Rx.sub re repl (c :: s) = c :: Rx.sub re repl s.
Proof. intros H. unfold Rx.sub. simpl. now rewrite H. Qed.

Lemma rx_sub_hit e s :
  Rx.match_len re s = Some e -> 0 < e <= length s ->
  Rx.sub re repl s = repl ++ Rx.sub re repl (skipn e s).
Proof.
  intros H He. unfold Rx.sub. destruct s as [|c s]; [simpl in He; lia|].
  simpl Rx.sub_from. rewrite H. destruct e as [|k]; [lia|].
  rewrite rx_sub_from_skip by (simpl in He; lia). reflexivity.
Qed.

(** Where the pattern matches at no place, the text stays as it is. *)
Lemma rx_sub_clean s :
  (forall i, Rx.match_len re (skipn i s) = None) -> Rx.sub re repl s = s.
Proof.
  induction s as [|c s IH]; intros H.
  - unfold Rx.sub. simpl. pose proof (H 0) as H0. simpl in H0. now rewrite H0.
  - rewrite rx_sub_miss by apply (H 0). f_equal. apply IH.
    intros i. apply (H (S i)).
Qed.

(** A stretch at no place of which the pattern matches is copied. *)
Lemma rx_sub_copy b t :
  (forall i, i < length b -> Rx.match_len re (skipn i b ++ t) = None) ->
  Rx.sub re repl (b ++ t) = b ++ Rx.sub re repl t.
Proof.
  induction b as [|c b IH]; intros H; [reflexivity|].
  simpl app. rewrite rx_sub_miss by (apply (H 0); simpl; lia).
  f_equal. apply IH. intros i Hi. apply (H (S i)). simpl. lia.
Qed.

End RxScan.

Lemma rx_exec_lits l its pos s e :
  Rx.exec (Rx.lits l ++ its) pos s = Some e <->
  exists s', s = l ++ s' /\ Rx.exec its (pos + length l) s' = Some e.
Proof.
  revert pos s; induction l as [|c l IH]; intros pos s.
  - simpl. rewrite Nat.add_0_r. split; [intros H; now exists s | now intros [s' [-> H]]].
  - change (Rx.exec (Rx.lits (c :: l) ++ its) pos s)
      with (match s with
            | x :: s' => if char_eqb c x then Rx.exec (Rx.lits l ++ its) (S pos) s' else None
            | [] => None
            end).
    destruct s as [|x s].
    + split; [discriminate | intros [s' [H _]]; discriminate].
    + destruct (char_eqb c x) eqn:E.
      * apply char_eqb_eq in E. subst x. rewrite IH. split.
        -- intros [s' [-> H]]. exists s'. split; [reflexivity|].
           simpl length. now rewrite Nat.add_succ_r.
        -- intros [s' [[= ->] H]]. exists s'. split; [reflexivity|].
           simpl length in H. now rewrite Nat.add_succ_r in H.
      * apply char_eqb_neq in E. split; [discriminate|].
        intros [s' [[= -> _] _]]. congruence.
Qed.

Lemma skipn_S {A} k (s : list A) : skipn (S k) s = skipn 1 (skipn k s).
Proof. now rewrite skipn_skipn. Qed.

(** A lazy repetition followed by a literal: the literal is taken at its
    first place from the second character on. *)
Lemma rx_try_up_first q pos s e todo k0 :
  Rx.try_up (fun k => Rx.exec [Rx.One (char_eqb q)] (pos + k) (skipn k s)) k0 todo
  = Some e <->
  exists v rest,
    skipn k0 s = v ++ q :: rest /\ length v < todo /\ ~ In q v
    /\ e = pos + k0 + length v + 1.
Proof.
  set (f := fun k => Rx.exec [Rx.One (char_eqb q)] (pos + k) (skipn k s)).
  revert k0; induction todo as [|t IH]; intros k0.
  - simpl. split; [discriminate | intros (v & rest & _ & H & _); lia].
  - simpl Rx.try_up.
    assert (Ef : f k0 = Rx.exec [Rx.One (char_eqb q)] (pos + k0) (skipn k0 s))
      by reflexivity.
    destruct (f k0) as [e0|] eqn:E; symmetry in Ef; rename Ef into E'; clear E;
      rename E' into E.
    + simpl in E. destruct (skipn k0 s) as [|x u] eqn:Es; [discriminate|].
      destruct (char_eqb q x) eqn:Ex; [|discriminate].
      apply char_eqb_eq in Ex. subst x. injection E as <-. split.
      * intros [= <-]. exists [], u. repeat split; auto; simpl; lia.
      * intros (v & rest & Hs & _ & Hv & ->). destruct v as [|y v].
        -- simpl. f_equal. lia.
        -- injection Hs as -> _. exfalso. apply Hv. now left.
    + rewrite IH. split.
      * intros (v & rest & Hs & Hlen & Hv & ->).
        destruct (skipn k0 s) as [|x u] eqn:Es.
        { exfalso. assert (Hnil : skipn (S k0) s = []).
          { now rewrite skipn_S, Es. }
          rewrite Hnil in Hs. destruct v; discriminate. }
        assert (Hu : skipn (S k0) s = u).
        { now rewrite skipn_S, Es. }
        rewrite Hu in Hs. subst u.
        exists (x :: v), rest. repeat split; simpl; try lia.
        intros [Hx|Hx]; [|contradiction]. subst x.
        simpl in E. now rewrite char_eqb_refl in E.
      * intros (v & rest & Hs & Hlen & Hv & ->).
        destruct v as [|y v].
        { simpl in Hs. rewrite Hs in E. simpl in E. now rewrite char_eqb_refl in E. }
        exists v, rest. split; [now rewrite skipn_S, Hs|].
        split; [simpl in Hlen; lia|]. split; [intros H; apply Hv; now right|].
        simpl. lia.
Qed.


(** ** [update_iframe] *)

Lemma rx_exec_notahead l its pos s :
  Rx.exec (Rx.NotAhead l :: its) pos s
  = if startswith s l then None else Rx.exec its pos s.
Proof. reflexivity. Qed.

Lemma iframe_lazy pos s e :
  Rx.exec [Rx.LazyPlus TP.any_char; Rx.One (char_eqb TP.quote)] pos s = Some e <->
  exists x v rest,
    s = x :: v ++ TP.quote :: rest
    /\ TP.any_char x = true /\ forallb TP.any_char v = true /\ ~ In TP.quote v
    /\ e = pos + length v + 2.
Proof.
  change (Rx.exec [Rx.LazyPlus TP.any_char; Rx.One (char_eqb TP.quote)] pos s)
    with (Rx.try_up
            (fun k => Rx.exec [Rx.One (char_eqb TP.quote)] (pos + k) (skipn k s))
            1 (Re.run TP.any_char s)).
  rewrite rx_try_up_first. split.
  - intros (v & rest & Hs & Hlen & Hv & ->).
    destruct s as [|x s]; [simpl in Hlen; lia|]. simpl in Hs. subst s.
    assert (Hall : forallb TP.any_char (firstn (S (length v)) (x :: v ++ TP.quote :: rest))
                   = true) by (apply run_firstn; lia).
    change (x :: v ++ TP.quote :: rest) with ((x :: v) ++ TP.quote :: rest) in Hall.
    rewrite (firstn_app_length (x :: v)) in Hall. simpl in Hall.
    apply andb_true_iff in Hall as [Hx Hall].
    exists x, v, rest. repeat split; auto. lia.
  - intros (x & v & rest & -> & Hx & Hall & Hv & ->).
    exists v, rest. repeat split; auto; [|lia].
    change (x :: v ++ TP.quote :: rest) with ((x :: v) ++ TP.quote :: rest).
    rewrite run_app by (simpl; now rewrite Hx, Hall). simpl. lia.
Qed.

(** The pattern of [update_iframe] matches at the head of a text exactly
    when the text opens an [allow] attribute whose value does not begin
    with the English permissions and closes on the same line: the match
    ends at the first double quote after the first character of the
    value. *)
Lemma iframe_match s e :
  Rx.match_len TP.iframe_pattern s = Some e <->
  exists x v rest,
    s = TP.allow_open ++ x :: v ++ TP.quote :: rest
    /\ startswith (x :: v ++ TP.quote :: rest) TP.english_permissions = false
    /\ TP.any_char x = true /\ forallb TP.any_char v = true /\ ~ In TP.quote v
    /\ e = length v + 9.
Proof.
  unfold Rx.match_len, TP.iframe_pattern. rewrite rx_exec_lits. split.
  - intros (s' & -> & H). rewrite rx_exec_notahead in H.
    destruct (startswith s' TP.english_permissions) eqn:Ela; [discriminate|].
    apply iframe_lazy in H as (x & v & rest & -> & Hx & Hall & Hv & ->).
    exists x, v, rest. repeat split; auto. simpl. lia.
  - intros (x & v & rest & -> & Hla & Hx & Hall & Hv & ->).
    exists (x :: v ++ TP.quote :: rest). split; [reflexivity|].
    rewrite rx_exec_notahead.
    rewrite Hla. apply iframe_lazy. exists x, v, rest. repeat split; auto.
    simpl. lia.
Qed.

Lemma iframe_match_prefix s e :
  Rx.match_len TP.iframe_pattern s = Some e -> startswith s TP.allow_open = true.
Proof.
  intros H. apply iframe_match in H as (x & v & rest & -> & _).
  apply startswith_app.
Qed.

Lemma occurs_in_skipn old s i :
  old <> [] -> occurs_in old s = false -> startswith (skipn i s) old = false.
Proof.
  intros Hold. revert i; induction s as [|c s IH]; intros i H.
  - rewrite skipn_nil. destruct old; [congruence | reflexivity].
  - simpl in H. apply orb_false_iff in H as [H1 H2].
    destruct i as [|i]; [exact H1 | now apply IH].
Qed.

(** X9: A text in which [allow=] followed by a double quote does not occur is
    returned as it is. *)
Theorem update_iframe_without_allow s :
  occurs_in TP.allow_open s = false -> TP.update_iframe s = s.
Proof.
  intros H. apply rx_sub_clean. intros i.
  destruct (Rx.match_len TP.iframe_pattern (skipn i s)) as [e|] eqn:E; [|reflexivity].
  apply iframe_match_prefix in E.
  rewrite (occurs_in_skipn _ _ i) in E by (discriminate || exact H). discriminate.
Qed.

Lemma update_iframe_without_allow_witness :
  TP.update_iframe (lit "<iframe width=560 allow=autoplay></iframe>")
  = lit "<iframe width=560 allow=autoplay></iframe>".
Proof. apply update_iframe_without_allow. reflexivity. Defined.

(** X10: the value of an [allow] attribute that stands on one line and does
    not begin with the English permissions is replaced by them, whatever
    it was; the pass goes on after the closing quote. *)
Theorem update_iframe_rewrites x v rest :
  startswith (x :: v ++ TP.quote :: rest) TP.english_permissions = false ->
  TP.any_char x = true -> forallb TP.any_char v = true -> ~ In TP.quote v ->
  TP.update_iframe (TP.allow_open ++ x :: v ++ TP.quote :: rest)
  = TP.english_allow ++ TP.update_iframe rest.
Proof.
  intros Hla Hx Hall Hv. unfold TP.update_iframe.
  rewrite (rx_sub_hit _ _ (length v + 9)).
  - f_equal. f_equal.
    replace (length v + 9) with (length (TP.allow_open ++ x :: v ++ [TP.quote]))
      by (rewrite length_app; simpl; rewrite length_app; simpl; lia).
    replace (TP.allow_open ++ x :: v ++ TP.quote :: rest)
      with ((TP.allow_open ++ x :: v ++ [TP.quote]) ++ rest).
    + apply skipn_app_length.
    + rewrite <- app_assoc. simpl. now rewrite <- app_assoc.
  - apply iframe_match. exists x, v, rest. repeat split; auto.
  - rewrite length_app. simpl. rewrite length_app. simpl. lia.
Qed.

Lemma update_iframe_rewrites_witness :
  TP.update_iframe (TP.allow_open ++ lit "autoplay; camera" ++ TP.quote :: lit " src=x>")
  = TP.english_allow ++ TP.update_iframe (lit " src=x>").
Proof.
  apply (update_iframe_rewrites (chr "a") (lit "utoplay; camera") (lit " src=x>")).
  - reflexivity.
  - reflexivity.
  - reflexivity.
  - apply not_in_text. reflexivity.
Defined.


(** *** Two passes of [update_iframe] *)

Lemma update_iframe_nil : TP.update_iframe [] = [].
Proof. reflexivity. Qed.

Lemma update_iframe_miss c s :
  Rx.match_len TP.iframe_pattern (c :: s) = None ->
  TP.update_iframe (c :: s) = c :: TP.update_iframe s.
Proof. apply rx_sub_miss. Qed.

(** How the pass starts on a text. *)
Lemma update_iframe_cases s :
  s = []
  \/ (exists c s', s = c :: s'
        /\ Rx.match_len TP.iframe_pattern s = None
        /\ TP.update_iframe s = c :: TP.update_iframe s')
  \/ (exists x v rest,
        s = TP.allow_open ++ x :: v ++ TP.quote :: rest
        /\ TP.any_char x = true /\ forallb TP.any_char v = true /\ ~ In TP.quote v
        /\ TP.update_iframe s = TP.english_allow ++ TP.update_iframe rest).
Proof.
  destruct s as [|c s]; [now left | right].
  destruct (Rx.match_len TP.iframe_pattern (c :: s)) as [e|] eqn:E.
  - right. apply iframe_match in E as (x & v & rest & Hs & Hla & Hx & Hall & Hv & _).
    exists x, v, rest. rewrite Hs. repeat split; auto.
    now apply update_iframe_rewrites.
  - left. exists c, s. repeat split; auto. now apply update_iframe_miss.
Qed.

(** A text without the letter [a] at the head of the result was at the
    head of the subject, and the pass went on after it. *)
Lemma update_iframe_prefix q :
  ~ In (chr "a") q ->
  forall t, startswith (TP.update_iframe t) q = true ->
            exists t2, t = q ++ t2 /\ TP.update_iframe t = q ++ TP.update_iframe t2.
Proof.
  induction q as [|y q IH]; intros Hq t H.
  - now exists t.
  - destruct (update_iframe_cases t) as [->|[(c & s' & -> & Hm & Hu)|
        (x & v & rest & -> & _ & _ & _ & Hu)]].
    + discriminate.
    + rewrite Hu in H. simpl in H. apply andb_true_iff in H as [Hc H].
      apply char_eqb_eq in Hc. subst c.
      destruct (IH (fun Hin => Hq (or_intror Hin)) s' H) as [t2 [-> Hu2]].
      exists t2. split; [reflexivity|]. now rewrite Hu, Hu2.
    + rewrite Hu in H.
      change (TP.english_allow ++ TP.update_iframe rest)
        with (chr "a" :: (lit "llow=" ++ TP.quote :: TP.english_permissions
                          ++ [TP.quote]) ++ TP.update_iframe rest) in H.
      simpl in H. apply andb_true_iff in H as [Hc _].
      apply char_eqb_eq in Hc. exfalso. apply Hq. now left.
Qed.

(** No match starts inside the English permissions or inside the
    replacement. *)
Lemma no_match_in_permissions t i :
  i < length TP.english_permissions ->
  Rx.match_len TP.iframe_pattern (skipn i TP.english_permissions ++ t) = None.
Proof.
  intros Hi.
  repeat (destruct i as [|i]; [reflexivity|]).
  simpl in Hi. lia.
Qed.

Lemma no_match_in_replacement t i :
  i < length TP.english_allow ->
  Rx.match_len TP.iframe_pattern (skipn i TP.english_allow ++ t) = None.
Proof.
  intros Hi.
  destruct i as [|i].
  { unfold Rx.match_len, TP.iframe_pattern.
    destruct (Rx.exec _ 0 (skipn 0 TP.english_allow ++ t)) as [e|] eqn:E; [|reflexivity].
    apply rx_exec_lits in E as (s' & Hs & E).
    change (skipn 0 TP.english_allow ++ t)
      with (TP.allow_open ++ (TP.english_permissions ++ TP.quote :: t)) in Hs.
    apply app_inv_head in Hs. subst s'.
    rewrite rx_exec_notahead, startswith_app in E. discriminate. }
  repeat (destruct i as [|i]; [reflexivity|]).
  simpl in Hi. lia.
Qed.


(** X11: an attribute whose value begins with the English permissions is left
    as it is, whatever follows them in the value, and the pass goes on
    after the permissions. *)
Theorem update_iframe_keeps_english rest :
  TP.update_iframe (TP.allow_open ++ TP.english_permissions ++ rest)
  = TP.allow_open ++ TP.english_permissions ++ TP.update_iframe rest.
Proof.
  unfold TP.update_iframe. rewrite !app_assoc.
  apply rx_sub_copy. intros i Hi.
  destruct i as [|i].
  { unfold Rx.match_len, TP.iframe_pattern.
    destruct (Rx.exec _ 0 (skipn 0 (TP.allow_open ++ TP.english_permissions) ++ rest))
      as [e|] eqn:E; [|reflexivity].
    apply rx_exec_lits in E as (s' & Hs & E).
    change (skipn 0 (TP.allow_open ++ TP.english_permissions) ++ rest)
      with (TP.allow_open ++ (TP.english_permissions ++ rest)) in Hs.
    apply app_inv_head in Hs. subst s'.
    rewrite rx_exec_notahead, startswith_app in E. discriminate. }
  repeat (destruct i as [|i]; [reflexivity|]).
  simpl in Hi. lia.
Qed.

Lemma update_iframe_permissions t :
  TP.update_iframe (TP.english_permissions ++ t)
  = TP.english_permissions ++ TP.update_iframe t.
Proof.
  apply rx_sub_copy. intros i Hi. now apply no_match_in_permissions.
Qed.

(** The double quote that closes a value in the result closed one in the
    subject. *)
Lemma update_iframe_quote v :
  forallb TP.any_char v = true -> ~ In TP.quote v ->
  forall t r,
    TP.update_iframe t = v ++ TP.quote :: r ->
    exists v0 r0,
      t = v0 ++ TP.quote :: r0 /\ forallb TP.any_char v0 = true /\ ~ In TP.quote v0.
Proof.
  induction v as [|y v IH]; intros Hall Hv t r H.
  - destruct (update_iframe_cases t) as [->|[(c & s' & -> & Hm & Hu)|
        (x & v0 & rest & -> & _ & _ & _ & Hu)]].
    + discriminate.
    + rewrite Hu in H. injection H as -> _. exists [], s'. repeat split; auto.
    + exists (lit "allow="), (x :: v0 ++ TP.quote :: rest).
      split; [reflexivity|]. split; [reflexivity|]. apply not_in_text. reflexivity.
  - destruct (update_iframe_cases t) as [->|[(c & s' & -> & Hm & Hu)|
        (x & v0 & rest & -> & _ & _ & _ & Hu)]].
    + discriminate.
    + rewrite Hu in H. injection H as -> H.
      simpl in Hall. apply andb_true_iff in Hall as [Hy Hall].
      destruct (IH Hall (fun Hin => Hv (or_intror Hin)) s' r H)
        as (v1 & r1 & -> & Hall1 & Hv1).
      exists (y :: v1), r1. split; [reflexivity|]. split.
      * simpl. now rewrite Hy, Hall1.
      * intros [Hq|Hq]; [apply Hv; now left | contradiction].
    + exists (lit "allow="), (x :: v0 ++ TP.quote :: rest).
      split; [reflexivity|]. split; [reflexivity|]. apply not_in_text. reflexivity.
Qed.

(** Where the pattern does not match in the subject, it does not match in
    the result either. *)
Lemma update_iframe_no_new_match c s :
  Rx.match_len TP.iframe_pattern (c :: s) = None ->
  Rx.match_len TP.iframe_pattern (c :: TP.update_iframe s) = None.
Proof.
  intros Hnone.
  destruct (Rx.match_len TP.iframe_pattern (c :: TP.update_iframe s)) as [e|] eqn:E;
    [exfalso | reflexivity].
  apply iframe_match in E as (x & v & rest & Hs & Hla & Hx & Hall & Hv & _).
  change (TP.allow_open ++ x :: v ++ TP.quote :: rest)
    with (chr "a" :: (lit "llow=" ++ [TP.quote]) ++ x :: v ++ TP.quote :: rest) in Hs.
  injection Hs as -> Hs.
  destruct (update_iframe_prefix (lit "llow=" ++ [TP.quote])
              ltac:(apply not_in_text; reflexivity) s) as [s2 [-> Hu]].
  { rewrite Hs.
    exact (startswith_app (lit "llow=" ++ [TP.quote]) (x :: v ++ TP.quote :: rest)). }
  rewrite Hu in Hs.
  change (chr "l" :: chr "l" :: chr "o" :: chr "w" :: chr "=" :: TP.quote
          :: x :: v ++ TP.quote :: rest)
    with ((lit "llow=" ++ [TP.quote]) ++ x :: v ++ TP.quote :: rest) in Hs.
  apply app_inv_head in Hs.
  assert (Hla2 : startswith s2 TP.english_permissions = false).
  { destruct (startswith s2 TP.english_permissions) eqn:E2; [|reflexivity].
    apply startswith_inv in E2 as [s3 ->].
    rewrite update_iframe_permissions in Hs. rewrite <- Hs in Hla.
    now rewrite startswith_app in Hla. }
  assert (Hdec : exists x0 v0 r0,
             s2 = x0 :: v0 ++ TP.quote :: r0
             /\ TP.any_char x0 = true /\ forallb TP.any_char v0 = true
             /\ ~ In TP.quote v0).
  { destruct (update_iframe_cases s2) as [->|[(d & t1 & -> & Hm & Hu2)|
        (x0 & v0 & r0 & -> & _ & _ & _ & _)]].
    - discriminate.
    - rewrite Hu2 in Hs. injection Hs as -> Hs.
      destruct (update_iframe_quote v Hall Hv t1 rest Hs) as (v1 & r1 & -> & H1 & H2).
      exists x, v1, r1. repeat split; auto.
    - exists (chr "a"), (lit "llow="), (x0 :: v0 ++ TP.quote :: r0).
      split; [reflexivity|]. split; [reflexivity|]. split; [reflexivity|].
      apply not_in_text. reflexivity. }
  destruct Hdec as (x0 & v0 & r0 & -> & Hx0 & Hall0 & Hv0).
  assert (Hsome : Rx.match_len TP.iframe_pattern
                    (TP.allow_open ++ x0 :: v0 ++ TP.quote :: r0)
                  = Some (length v0 + 9)).
  { apply iframe_match. exists x0, v0, r0. repeat split; auto. }
  change (chr "a" :: (lit "llow=" ++ [TP.quote]) ++ x0 :: v0 ++ TP.quote :: r0)
    with (TP.allow_open ++ x0 :: v0 ++ TP.quote :: r0) in Hnone.
  congruence.
Qed.

(** After a pass the pattern matches nowhere. *)
Lemma update_iframe_clean s :
  forall i, Rx.match_len TP.iframe_pattern (skipn i (TP.update_iframe s)) = None.
Proof.
  remember (length s) as n eqn:Hn. revert s Hn.
  induction n as [n IH] using lt_wf_ind. intros s Hn i.
  destruct (update_iframe_cases s) as [->|[(c & s' & -> & Hm & Hu)|
      (x & v & rest & -> & _ & _ & _ & Hu)]].
  - rewrite update_iframe_nil, skipn_nil. reflexivity.
  - rewrite Hu. destruct i as [|i].
    + now apply update_iframe_no_new_match.
    + simpl skipn. apply (IH (length s')); [subst n; simpl; lia | reflexivity].
  - rewrite Hu, skipn_app.
    destruct (Nat.lt_ge_cases i (length TP.english_allow)) as [Hi|Hi].
    + replace (i - length TP.english_allow) with 0 by lia. simpl (skipn 0 _).
      now apply no_match_in_replacement.
    + rewrite skipn_all2 by exact Hi. simpl app.
      apply (IH (length rest)); [|reflexivity].
      subst n. rewrite length_app. simpl. rewrite length_app. simpl. lia.
Qed.

(** X12: A second pass of [update_iframe] changes nothing. *)
Theorem update_iframe_idempotent s :
  TP.update_iframe (TP.update_iframe s) = TP.update_iframe s.
Proof.
  apply rx_sub_clean. apply update_iframe_clean.
Qed.

(** ** [replace_front_matter] and [replace_admonitions] *)

Lemma rx_try_from_some {A} (f : nat -> option A) n r :
  Rx.try_from f n = Some r -> exists k, f k = Some r.
Proof.
  induction n as [|n IH]; simpl.
  - intros H. now exists 0.
  - destruct (f (S n)) as [r'|] eqn:E; [intros [= <-]; now exists (S n) | exact IH].
Qed.

Lemma rx_try_up_some {A} (f : nat -> option A) k todo r :
  Rx.try_up f k todo = Some r -> exists j, f j = Some r.
Proof.
  revert k; induction todo as [|t IH]; intros k; simpl; [discriminate|].
  destruct (f k) as [r'|] eqn:E; [intros [= <-]; now exists k | apply IH].
Qed.

Lemma in_skipn {A} (x : A) k s : In x (skipn k s) -> In x s.
Proof.
  intros H. rewrite <- (firstn_skipn k s). apply in_or_app. now right.
Qed.

(** A pattern with an item for one character of a class matches only a
    text that has a character of the class. *)
Lemma rx_exec_needs p its :
  In (Rx.One p) its ->
  forall pos s e, Rx.exec its pos s = Some e -> exists x, In x s /\ p x = true.
Proof.
  induction its as [|it its IH]; intros Hin pos s e H; [contradiction|].
  destruct it as [p0|p0|p0|l].
  - simpl in H. destruct s as [|x s]; [discriminate|].
    destruct (p0 x) eqn:Ex; [|discriminate].
    destruct Hin as [Hhd|Hin].
    + injection Hhd as ->. exists x. split; [now left | exact Ex].
    + destruct (IH Hin _ _ _ H) as [y [Hy Hp]]. exists y. split; [now right | exact Hp].
  - destruct Hin as [Hhd|Hin]; [discriminate|].
    simpl in H. apply rx_try_from_some in H as [k H].
    destruct (IH Hin _ _ _ H) as [y [Hy Hp]]. exists y. split; [|exact Hp].
    eapply in_skipn; eauto.
  - destruct Hin as [Hhd|Hin]; [discriminate|].
    simpl in H. apply rx_try_up_some in H as [k H].
    destruct (IH Hin _ _ _ H) as [y [Hy Hp]]. exists y. split; [|exact Hp].
    eapply in_skipn; eauto.
  - destruct Hin as [Hhd|Hin]; [discriminate|].
    rewrite rx_exec_notahead in H. destruct (startswith s l); [discriminate|].
    eapply IH; eauto.
Qed.

Lemma rx_sub_needs p re repl s :
  In (Rx.One p) re -> (forall x, In x s -> p x = false) -> Rx.sub re repl s = s.
Proof.
  intros Hin Hs. apply rx_sub_clean. intros i.
  destruct (Rx.match_len re (skipn i s)) as [e|] eqn:E; [|reflexivity].
  destruct (rx_exec_needs p re Hin _ _ _ E) as [x [Hx Hp]].
  apply in_skipn in Hx. rewrite (Hs x Hx) in Hp. discriminate.
Qed.

Lemma fold_left_fixed {A B} (f : A -> B -> A) (l : list B) (a : A) :
  (forall b, In b l -> f a b = a) -> fold_left f l a = a.
Proof.
  induction l as [|b l IH]; intros H; simpl; [reflexivity|].
  rewrite (H b) by now left. apply IH. intros b' Hb'. apply H. now right.
Qed.

(** X13: A text with neither a colon nor a full-width colon is returned as it
    is by [replace_front_matter]: every pattern of the pass asks for one
    of the two after the term. *)
Theorem replace_front_matter_without_colon ignorecase content :
  ~ In (chr ":") content -> ~ In 65306%N content ->
  TP.replace_front_matter ignorecase content = content.
Proof.
  intros H1 H2.
  assert (Hc : forall x, In x content -> TP.colon x = false).
  { intros x Hx. unfold TP.colon. apply orb_false_iff. split; apply char_eqb_neq.
    - intros ->. contradiction.
    - intros ->. contradiction. }
  unfold TP.replace_front_matter. apply fold_left_fixed. intros terms _.
  apply fold_left_fixed. intros [term eng_key] _. unfold TP.front_matter_step.
  destruct (text_eqb eng_key (lit "comments")).
  - apply (rx_sub_needs TP.colon); [|exact Hc].
    unfold TP.comments_pattern. apply in_or_app. right. right. now left.
  - apply (rx_sub_needs TP.colon); [|exact Hc].
    unfold TP.key_pattern. apply in_or_app. right. right. now left.
Qed.

Lemma replace_front_matter_without_colon_witness :
  TP.replace_front_matter (fun c x => char_eqb c x) (ulit "descripción de la página")
  = ulit "descripción de la página".
Proof.
  apply replace_front_matter_without_colon; apply not_in_text; reflexivity.
Defined.

(** X14: A text in which three exclamation marks in a row do not occur is
    returned as it is by [replace_admonitions]. *)
Theorem replace_admonitions_without_marker ignorecase content :
  occurs_in (lit "!!!") content = false ->
  TP.replace_admonitions ignorecase content = content.
Proof.
  intros H. unfold TP.replace_admonitions. apply fold_left_fixed. intros terms _.
  apply fold_left_fixed. intros [term eng_key] _. unfold TP.admonition_step.
  apply rx_sub_clean. intros i.
  destruct (Rx.match_len (TP.admonition_pattern ignorecase term) (skipn i content))
    as [e|] eqn:E; [|reflexivity].
  unfold Rx.match_len, TP.admonition_pattern in E.
  apply rx_exec_lits in E as (s' & Hs & _).
  assert (Hst : startswith (skipn i content) (lit "!!!") = true)
    by (rewrite Hs; apply startswith_app).
  rewrite (occurs_in_skipn _ _ i) in Hst by (discriminate || exact H). discriminate.
Qed.

Lemma replace_admonitions_without_marker_witness :
  TP.replace_admonitions (fun c x => char_eqb c x) (ulit "¡Nota! Véase también: !! nota")
  = ulit "¡Nota! Véase también: !! nota".
Proof. apply replace_admonitions_without_marker. reflexivity. Defined.

(** ** The walk over the tree *)

Lemma is_prefix_same_length a b :
  is_prefix a b = true -> length a = length b -> a = b.
Proof.
  revert b; induction a as [|x a IH]; intros [|y b] H Hlen; simpl in *;
    try discriminate; [reflexivity|].
  apply andb_true_iff in H as [Hx H]. apply text_eqb_eq in Hx. subst.
  f_equal. apply IH; [exact H | lia].
Qed.

Lemma path_eqb_eq p q : path_eqb p q = true -> p = q.
Proof.
  unfold path_eqb. rewrite !andb_true_iff. intros [Hr [Hl Hp]].
  apply Bool.eqb_prop in Hr. apply Nat.eqb_eq in Hl.
  destruct p as [rp np], q as [rq nq]. simpl in *. subst.
  f_equal. now apply is_prefix_same_length.
Qed.

Lemma is_prefix_app_last B n x r :
  is_prefix (B ++ [n]) (B ++ x :: r) = true -> n = x.
Proof.
  induction B as [|b B IH]; simpl.
  - rewrite andb_true_r. apply text_eqb_eq.
  - rewrite text_eqb_refl. exact IH.
Qed.

Section WalkFacts.

Variable ignorecase : char -> char -> bool.
Variable isalnum : char -> bool.
Variable rglob_md : path -> list path.
Variable may_read : path -> bool.
Variable may_write : path -> bool.
Variable device : path -> text -> option (option text).

Lemma write_text_frame st md content p :
  path_eqb p md = false ->
  fst (Walker.write_text may_write device st md content) p = Walker.files st p.
Proof.
  intros Hp. unfold Walker.write_text.
  destruct (may_write md); [|reflexivity].
  destruct (existsb Walker.surrogate content).
  - simpl. unfold Walker.put. now rewrite Hp.
  - destruct (device md content); simpl; unfold Walker.put; now rewrite Hp.
Qed.

Lemma process_markdown_file_frame self fs md lang_dir st p :
  path_eqb p md = false ->
  Walker.files
    (fst (Walker.process_markdown_file ignorecase may_read may_write device
            self fs md lang_dir st)) p
  = Walker.files st p.
Proof.
  intros Hp. unfold Walker.process_markdown_file.
  destruct (Walker.read_text may_read st md) as [f|content]; [reflexivity|].
  destruct (MLF.process_markdown_file_links self fs content md lang_dir)
    as [out [content1|e]]; [|reflexivity].
  match goal with
  | |- context [Walker.write_text may_write device st md ?c] =>
      pose proof (write_text_frame st md c p Hp) as Hw;
      destruct (Walker.write_text may_write device st md c) as [files' f]
  end.
  exact Hw.
Qed.

(** X15: [process_markdown_file] changes no file other than the one it is
    given.  When it ends with a failure that comes before the text is
    written (the file cannot be read, the link pass raises, the file
    cannot be opened for writing), no file has changed at all: the file
    is opened for writing only after every pass is done.  The failures
    that leave the file changed are those of the write itself. *)
Theorem process_markdown_file_writes_one self fs md_file_path lang_dir st st' r :
  Walker.process_markdown_file ignorecase may_read may_write device
    self fs md_file_path lang_dir st = (st', r) ->
  (forall p, path_eqb p md_file_path = false ->
             Walker.files st' p = Walker.files st p)
  /\ (forall f, r = Some f ->
        f <> Walker.UnicodeEncodeError -> f <> Walker.DeviceError ->
        forall p, Walker.files st' p = Walker.files st p).
Proof.
  intros E. split.
  - intros p Hp.
    pose proof (process_markdown_file_frame self fs md_file_path lang_dir st p Hp) as H.
    now rewrite E in H.
  - revert E. unfold Walker.process_markdown_file.
    destruct (Walker.read_text may_read st md_file_path) as [f0|content].
    { intros [= <- <-]. reflexivity. }
    destruct (MLF.process_markdown_file_links self fs content md_file_path lang_dir)
      as [out [content1|e]].
    2:{ intros [= <- <-]. reflexivity. }
    unfold Walker.write_text.
    destruct (may_write md_file_path).
    + destruct (existsb Walker.surrogate _).
      * intros [= <- <-] f [= <-] H. congruence.
      * destruct (device md_file_path _).
        -- intros [= <- <-] f [= <-] _ H. congruence.
        -- intros [= <- <-] f H. discriminate.
    + intros [= <- <-]. reflexivity.
Qed.

Lemma process_files_frame self fs lang_dir md_files p :
  (forall q, In q md_files -> path_eqb p q = false) ->
  forall st,
    Walker.files
      (fst (Walker.process_files ignorecase may_read may_write device
              self fs lang_dir md_files st)) p
    = Walker.files st p.
Proof.
  induction md_files as [|md rest IH]; intros Hp st; [reflexivity|].
  simpl.
  pose proof (process_markdown_file_frame self fs md lang_dir st p
                (Hp md (or_introl eq_refl))) as Hw.
  destruct (Walker.process_markdown_file ignorecase may_read may_write device
              self fs md lang_dir st) as [st' [f|]].
  - exact Hw.
  - rewrite IH by (intros q Hq; apply Hp; now right). exact Hw.
Qed.

Lemma process_language_directory_frame self fs lang_dir p st :
  (forall q, In q (rglob_md lang_dir) -> path_eqb p q = false) ->
  Walker.files
    (fst (Walker.process_language_directory ignorecase rglob_md may_read may_write
            device self fs lang_dir st)) p
  = Walker.files st p.
Proof.
  intros Hp. unfold Walker.process_language_directory.
  now rewrite process_files_frame.
Qed.

(** X16: [run] leaves the text of every file of the reference directory as it
    is: the directories it takes are entries of the base directory other
    than [en], and the files processed are the ones found below them. *)
Theorem run_keeps_reference_tree self fs st r :
  (forall d, In d (FS.iterdir fs (MLF.base_dir self)) ->
             d = mk (root (MLF.base_dir self))
                    (names (MLF.base_dir self) ++ [name d])) ->
  (forall d q, In q (rglob_md d) ->
               root q = root d /\ is_prefix (names d) (names q) = true) ->
  Walker.files
    (fst (Walker.run ignorecase isalnum rglob_md may_read may_write device
            self fs st))
    (mk (root (MLF.base_dir self)) (names (MLF.base_dir self) ++ MLF.en :: r))
  = Walker.files st
      (mk (root (MLF.base_dir self)) (names (MLF.base_dir self) ++ MLF.en :: r)).
Proof.
  intros Hiter Hglob.
  set (p := mk (root (MLF.base_dir self)) (names (MLF.base_dir self) ++ MLF.en :: r)).
  unfold Walker.run, MLF.run.
  assert (Hgen : forall l acc,
            (forall d, In d l -> In d (FS.iterdir fs (MLF.base_dir self))) ->
            Walker.files
              (fst (fold_left
                      (fun (st0 : Walker.state * option Walker.failure) subdir =>
                         if MLF.is_lang_dir isalnum fs subdir
                         then match st0 with
                              | (st1, None) =>
                                  Walker.process_language_directory ignorecase rglob_md
                                    may_read may_write device self fs subdir st1
                              | (st1, Some f) => (st1, Some f)
                              end
                         else st0) l acc)) p
            = Walker.files (fst acc) p).
  { induction l as [|d l IH]; intros acc Hl; [reflexivity|].
    simpl fold_left. rewrite IH by (intros d' Hd'; apply Hl; now right).
    destruct (MLF.is_lang_dir isalnum fs d) eqn:Ed; [|reflexivity].
    destruct acc as [st1 [f|]]; [reflexivity|].
    simpl fst. apply process_language_directory_frame.
    intros q Hq. destruct (path_eqb p q) eqn:Epq; [exfalso|reflexivity].
    apply path_eqb_eq in Epq. subst q.
    destruct (Hglob d p Hq) as [_ Hpre].
    rewrite (Hiter d) in Hpre by (apply Hl; now left).
    simpl names in Hpre. apply is_prefix_app_last in Hpre.
    apply (is_lang_dir_iff isalnum) in Ed as (_ & _ & Hne).
    apply Hne. exact Hpre. }
  apply (Hgen _ (st, None)). auto.
Qed.

End WalkFacts.

(** The file of the example tree, on a device that takes every text: the
    links are rewritten in its text, every other file stays as it is; and
    on the text with the link to the root, where the link pass raises,
    no file changes. *)
Lemma process_markdown_file_writes_one_witness :
  (forall p, path_eqb p Example.start_md = false ->
     Walker.files
       (fst (Walker.process_markdown_file (fun c x => char_eqb c x)
               (fun _ => true) (fun _ => true) (fun _ _ => None)
               Example.docs Example.tree Example.start_md Example.fr
               (Walker.mkState
                  (fun p => if path_eqb p Example.start_md
                            then Walker.File (Some (lit "[t](/.md)"))
                            else Walker.Absent) []))) p
     = (if path_eqb p Example.start_md
        then Walker.File (Some (lit "[t](/.md)")) else Walker.Absent))
  /\ (forall f,
        snd (Walker.process_markdown_file (fun c x => char_eqb c x)
               (fun _ => true) (fun _ => true) (fun _ _ => None)
               Example.docs Example.tree Example.start_md Example.fr
               (Walker.mkState
                  (fun p => if path_eqb p Example.start_md
                            then Walker.File (Some (lit "[t](/.md)"))
                            else Walker.Absent) []))
        = Some f ->
        f <> Walker.UnicodeEncodeError -> f <> Walker.DeviceError ->
        forall p,
          Walker.files
            (fst (Walker.process_markdown_file (fun c x => char_eqb c x)
                    (fun _ => true) (fun _ => true) (fun _ _ => None)
                    Example.docs Example.tree Example.start_md Example.fr
                    (Walker.mkState
                       (fun p => if path_eqb p Example.start_md
                                 then Walker.File (Some (lit "[t](/.md)"))
                                 else Walker.Absent) []))) p
          = (if path_eqb p Example.start_md
             then Walker.File (Some (lit "[t](/.md)")) else Walker.Absent)).
Proof.
  apply (process_markdown_file_writes_one (fun c x => char_eqb c x)
           (fun _ => true) (fun _ => true) (fun _ _ => None)
           Example.docs Example.tree Example.start_md Example.fr
           (Walker.mkState
              (fun p => if path_eqb p Example.start_md
                        then Walker.File (Some (lit "[t](/.md)"))
                        else Walker.Absent) [])).
  apply surjective_pairing.
Defined.

(** On the example tree, with [start.md] the one file found below [fr]:
    [en/install.md] keeps its text. *)
Lemma run_keeps_reference_tree_witness :
  Walker.files
    (fst (Walker.run (fun c x => char_eqb c x) (fun _ => false)
            (fun d => if path_eqb d Example.fr then [Example.start_md] else [])
            (fun _ => true) (fun _ => true) (fun _ _ => None)
            Example.docs Example.tree
            (Walker.mkState
               (fun p => if path_eqb p Example.start_md
                         then Walker.File (Some Example.start_text)
                         else Walker.File (Some (lit "# Install"))) [])))
    (Example.P "/docs/en/install.md")
  = Walker.File (Some (lit "# Install")).
Proof.
  refine (run_keeps_reference_tree (fun c x => char_eqb c x) (fun _ => false)
            (fun d => if path_eqb d Example.fr then [Example.start_md] else [])
            (fun _ => true) (fun _ => true) (fun _ _ => None)
            Example.docs Example.tree
            (Walker.mkState
               (fun p => if path_eqb p Example.start_md
                         then Walker.File (Some Example.start_text)
                         else Walker.File (Some (lit "# Install"))) [])
            [lit "install.md"] _ _).
  - intros d Hd. vm_compute in Hd. destruct Hd as [<-|[<-|[]]]; reflexivity.
  - intros d q Hq. destruct (path_eqb d Example.fr) eqn:E.
    + apply path_eqb_eq in E. subst d. destruct Hq as [<-|[]]. split; reflexivity.
    + destruct Hq.
Defined.

(** ** What a pass over the links prints and keeps *)

(** X17: whatever [link_replacer] returns for a match of the link pattern is
    again a link with the display text of the match: only the target can
    change. *)
Theorem link_replacer_keeps_display_text
    self fs bos s m text_ path_ parent_dir lang_dir use_abs_link r :
  Re.match_at MLF.md_link_regex bos s = Some m ->
  Re.groups m = [text_; path_] ->
  outcome (MLF.link_replacer self fs m parent_dir lang_dir use_abs_link) = Ok r ->
  exists target, r = lit "[" ++ text_ ++ lit "](" ++ target ++ lit ")".
Proof.
  intros Hm Hg.
  assert (H0 : Re.group0 m = lit "[" ++ text_ ++ lit "](" ++ (path_ ++ lit ".md") ++ lit ")").
  { apply match_at_md_link in Hm as (t & p & rest & _ & _ & _ & _ & _ & ->).
    simpl in Hg. injection Hg as -> ->. unfold MLF.link_text. simpl.
    now rewrite <- !app_assoc. }
  unfold MLF.link_replacer. rewrite Hg.
  destruct (MLF.linked_path fs parent_dir path_) as [linked|e]; [|discriminate].
  unfold lift. cbv [bind].
  destruct (FS.exists_ fs linked) as [[|]|e]; cbv [negb]; [| |discriminate].
  - simpl. intros [= <-]. now exists (path_ ++ lit ".md").
  - destruct (FS.exists_ fs (MLF.en_linked_path linked lang_dir)) as [[|]|e];
      [| |discriminate].
    + destruct (if use_abs_link
                then MLF.updated_path_abs (MLF.en_linked_path linked lang_dir) lang_dir
                else MLF.updated_path_rel self parent_dir
                       (MLF.en_linked_path linked lang_dir)) as [u|e];
        [|discriminate].
      simpl. intros [= <-]. now exists u.
    + simpl. intros [= <-]. now exists (path_ ++ lit ".md").
Qed.

Lemma link_replacer_keeps_display_text_witness :
  exists target, lit "[Setup](../../install.md)"
                 = lit "[" ++ lit "Setup" ++ lit "](" ++ target ++ lit ")".
Proof.
  apply (link_replacer_keeps_display_text Example.docs Example.tree true
           (lit "[Setup](../install.md)") Example.setup_link (lit "Setup")
           (lit "../install") Example.guides Example.fr false);
    reflexivity.
Defined.

Lemma link_replacer_lines self fs m parent_dir lang_dir use_abs_link r :
  outcome (MLF.link_replacer self fs m parent_dir lang_dir use_abs_link) = Ok r ->
  length (output (MLF.link_replacer self fs m parent_dir lang_dir use_abs_link))
  = match MLF.resolution fs m parent_dir lang_dir with
    | Ok MLF.Unchanged => 0
    | _ => 1
    end.
Proof.
  unfold MLF.link_replacer, MLF.resolution.
  destruct (Re.groups m) as [|t [|p [|x l]]]; try discriminate.
  destruct (MLF.linked_path fs parent_dir p) as [linked|e]; [|discriminate].
  unfold lift. cbv [bind].
  destruct (FS.exists_ fs linked) as [[|]|e]; cbv [negb];
    [reflexivity| |discriminate].
  destruct (FS.exists_ fs (MLF.en_linked_path linked lang_dir)) as [[|]|e];
    [|reflexivity|discriminate].
  destruct (if use_abs_link
            then MLF.updated_path_abs (MLF.en_linked_path linked lang_dir) lang_dir
            else MLF.updated_path_rel self parent_dir
                   (MLF.en_linked_path linked lang_dir)) as [u|e];
    [reflexivity | discriminate].
Qed.

Lemma assemble_lines (repl : Re.Match -> M text) (count : Re.Match -> nat) chunks r :
  (forall m r', outcome (repl m) = Ok r' -> length (output (repl m)) = count m) ->
  outcome (Re.assemble repl chunks) = Ok r ->
  length (output (Re.assemble repl chunks))
  = list_sum (map count
                (flat_map (fun ch => match ch with
                                     | Re.Matched m => [m]
                                     | Re.Plain _ => []
                                     end) chunks)).
Proof.
  intros Hc. revert r; induction chunks as [|[c|m] chunks IH]; intros r H.
  - reflexivity.
  - simpl in *. unfold bind in *.
    destruct (Re.assemble repl chunks) as [out [a|e]]; [|discriminate].
    simpl. unfold ret. simpl. rewrite app_nil_r.
    apply (IH a). reflexivity.
  - simpl in *. unfold bind in *.
    pose proof (Hc m) as Hm.
    destruct (repl m) as [out1 [r1|e]]; [|discriminate].
    destruct (Re.assemble repl chunks) as [out2 [a|e]]; [|discriminate].
    unfold ret. simpl. rewrite app_nil_r, length_app.
    pose proof (Hm r1 eq_refl) as Hlen. simpl in Hlen. rewrite Hlen.
    f_equal. apply (IH a). reflexivity.
Qed.

(** X18: when the link step ends without exception, it has printed one line
    for each link of the text that does not resolve as [Unchanged], and
    nothing else. *)
Theorem one_line_per_changed_link self fs content md_file_path lang_dir r :
  MLF.update_links self = true ->
  outcome (MLF.process_markdown_file_links self fs content md_file_path lang_dir)
  = Ok r ->
  length (output (MLF.process_markdown_file_links self fs content md_file_path lang_dir))
  = length (filter (fun m => match MLF.resolution fs m (parent md_file_path) lang_dir with
                             | Ok MLF.Unchanged => false
                             | _ => true
                             end)
                   (Re.finditer MLF.md_link_regex content)).
Proof.
  intros Hul. unfold MLF.process_markdown_file_links. rewrite Hul.
  unfold Re.sub. rewrite sub_from_assemble. intros H.
  rewrite (assemble_lines _
             (fun m => match MLF.resolution fs m (parent md_file_path) lang_dir with
                       | Ok MLF.Unchanged => 0
                       | _ => 1
                       end) _ r).
  - unfold Re.finditer, Re.scan.
    generalize (flat_map (fun ch => match ch with
                                    | Re.Matched m => [m]
                                    | Re.Plain _ => []
                                    end)
                         (Re.scan_from MLF.md_link_regex true 0 content)) as ms.
    induction ms as [|m ms IH]; [reflexivity|]. simpl.
    destruct (MLF.resolution fs m (parent md_file_path) lang_dir) as [[| |]|e];
      simpl; now rewrite IH.
  - intros m r'. apply link_replacer_lines.
  - exact H.
Qed.

Lemma one_line_per_changed_link_witness :
  length (output (MLF.process_markdown_file_links Example.docs Example.tree
                    Example.start_text Example.start_md Example.fr))
  = length (filter (fun m => match MLF.resolution Example.tree m
                                     (parent Example.start_md) Example.fr with
                             | Ok MLF.Unchanged => false
                             | _ => true
                             end)
                   (Re.finditer MLF.md_link_regex Example.start_text)).
Proof.
  apply (one_line_per_changed_link Example.docs Example.tree Example.start_text
           Example.start_md Example.fr Example.start_text_fixed);
    reflexivity.
Defined.
